(** * SQLBOT: the question-to-SQL pipeline of [app.py]

    A shallow embedding of the Streamlit script [src/app.py] and the
    properties of its specification.

    - [PyStr]: Python [str] values as lists of code points, with the
      [str] methods the script calls ([in], [find], [split], [strip],
      [replace]).
    - [Extractor]: the function [extract_sql].
    - [App]: the session dictionary, the external collaborators
      (database layer, completion client) as oracles over an abstract
      world, the interface calls as a trace of events, and the two
      button handlers as state-passing programs.
    - [PyStrFacts], [ExtractorFacts], [StripFacts], [AppFacts]: the
      lemmas; the properties of the specification are the theorems
      marked C1 to C10.
    - [ExtractorMore], [AppMore]: further properties of the same code,
      marked X1 to X22. *)

From Stdlib Require Import NArith Ascii String List Lia.
From stdpp Require Import base option list strings gmap.
From Equations Require Import Equations.

Set Default Proof Using "Type".

(** ** Python strings *)

Module PyStr.

(** A [str] is a sequence of Unicode code points. *)
Definition pystr := list N.

(** String literals of the script (all of them ASCII). *)
Definition lit (s : string) : pystr :=
  (fun a => N_of_ascii a) <$> list_ascii_of_string s.

(** [s.startswith(p)]. *)
Fixpoint startswith (p s : pystr) : bool :=
  match p, s with
  | [], _ => true
  | _ :: _, [] => false
  | a :: p', b :: s' => N.eqb a b && startswith p' s'
  end.

(** [s.find(sub)]: the lowest index at which [sub] occurs, [None] for
    Python's [-1]. *)
Fixpoint find (sub s : pystr) : option nat :=
  if startswith sub s then Some 0
  else match s with
       | [] => None
       | _ :: s' => S <$> find sub s'
       end.

(** [sub in s]. *)
Definition contains (sub s : pystr) : bool :=
  match find sub s with
  | Some _ => true
  | None => false
  end.

(** [str.isspace] on one code point: the characters [str.strip()]
    removes. *)
Definition is_space (c : N) : bool :=
  ((9 <=? c) && (c <=? 13) || (28 <=? c) && (c <=? 32)
   || (c =? 133) || (c =? 160) || (c =? 5760)
   || (8192 <=? c) && (c <=? 8202)
   || (c =? 8232) || (c =? 8233) || (c =? 8239) || (c =? 8287)
   || (c =? 12288))%N.

Fixpoint lstrip (s : pystr) : pystr :=
  match s with
  | [] => []
  | c :: s' => if is_space c then lstrip s' else s
  end.

Definition rstrip (s : pystr) : pystr := reverse (lstrip (reverse s)).

(** [s.strip()]. *)
Definition strip (s : pystr) : pystr := rstrip (lstrip s).

Definition inspect {A} (a : A) : {b | a = b} := exist _ a eq_refl.

Lemma startswith_length p s :
  startswith p s = true → length p ≤ length s.
Proof.
  revert s. induction p as [|a p IH]; intros [|b s]; simpl; try lia; try discriminate.
  intros [_ H]%andb_prop. apply IH in H. lia.
Qed.

Lemma find_bound sub s j :
  find sub s = Some j → j + length sub ≤ length s.
Proof.
  revert j. induction s as [|c s IH]; intros j; simpl.
  - destruct sub; simpl; [intros [= <-]; simpl; lia | discriminate].
  - destruct (startswith sub (c :: s)) eqn:E.
    + intros [= <-]. apply startswith_length in E. simpl in *. lia.
    + destruct (find sub s) as [k|]; simpl; [|discriminate].
      intros [= <-]. specialize (IH k eq_refl). lia.
Qed.

(** The loop of [s.split(sep)] for a separator [c :: sep']: cut at the
    next occurrence, continue behind it. *)
Equations? split_go (c : N) (sep' s : pystr) : list pystr by wf (length s) lt :=
  split_go c sep' s with inspect (find (c :: sep') s) := {
    | exist _ (Some j) H =>
        take j s :: split_go c sep' (drop (j + length (c :: sep')) s);
    | exist _ None _ => [s] }.
Proof. apply find_bound in H. rewrite length_drop. simpl in *. lia. Qed.

(** The loop of [s.replace(old, new)] for a search string [c :: old']. *)
Equations? replace_go (c : N) (old' new s : pystr) : pystr by wf (length s) lt :=
  replace_go c old' new s with inspect (find (c :: old') s) := {
    | exist _ (Some j) H =>
        take j s ++ new ++ replace_go c old' new (drop (j + length (c :: old')) s);
    | exist _ None _ => s }.
Proof. apply find_bound in H. rewrite length_drop. simpl in *. lia. Qed.

(** [s.replace(old, new)]; an empty [old] matches before every character
    and at the end. *)
Definition replace (old new s : pystr) : pystr :=
  match old with
  | [] => new ++ flat_map (fun ch => ch :: new) s
  | c :: old' => replace_go c old' new s
  end.

(** *** Vocabulary of the statements below *)

(** The text up to the first occurrence of [sub], all of it when there
    is none: what [s.split(sub)[0]] evaluates to. *)
Definition before (sub s : pystr) : pystr :=
  match find sub s with
  | Some j => take j s
  | None => s
  end.

(** Neither text is a prefix of the other. *)
Definition clash (p t : pystr) : bool :=
  negb (startswith p t) && negb (startswith t p).

(** The code point [x] does not occur in [q]. *)
Definition absent (x : N) (q : pystr) : bool :=
  forallb (λ y, negb (y =? x)%N) q.

(** No occurrence of [p] can begin inside a copy of [new], whatever
    follows the copy. *)
Definition no_start (p new : pystr) : bool :=
  forallb (λ k, clash p (drop k new)) (seq 0 (length new)).

(** The text does not begin with white space. *)
Definition head_ok (s : pystr) : bool :=
  match s with
  | [] => true
  | c :: _ => negb (is_space c)
  end.

(** [sep.join(pieces)]. *)
Fixpoint join (sep : pystr) (pieces : list pystr) : pystr :=
  match pieces with
  | [] => []
  | [p] => p
  | p :: rest => p ++ sep ++ join sep rest
  end.

(** [body] is [x] without the white space at its two ends: what is cut
    off on either side is white space only, and [body] neither begins
    nor ends with white space. *)
Definition trims_to (x body : pystr) : Prop :=
  ∃ a b,
    x = a ++ body ++ b ∧
    Forall (λ c, is_space c = true) a ∧
    Forall (λ c, is_space c = true) b ∧
    (∀ c, head body = Some c → is_space c = false) ∧
    (∀ c, last body = Some c → is_space c = false).

(** No proper suffix of [p] is a prefix of [p]: two occurrences of [p]
    cannot overlap. *)
Definition unbordered (p : pystr) : bool :=
  forallb (λ j, clash (drop (S j) p) p) (seq 0 (length p - 1)).

End PyStr.

(** ** Exceptions *)

Module Exn.
Import PyStr.

Inductive kind := ValueError | IndexError | OtherError.

(** An exception, an instance of [Exception] (what the [except] clauses
    of the script catch): its class and [str(e)]. *)
Record exn := mkExn { exn_kind : kind; exn_msg : pystr }.

Inductive result (A : Type) :=
| Ok (a : A)
| Raise (e : exn).
Arguments Ok {A} a.
Arguments Raise {A} e.

#[global] Instance result_ret : MRet result := λ A a, Ok a.
#[global] Instance result_bind : MBind result := λ A B k r,
  match r with
  | Ok a => k a
  | Raise e => Raise e
  end.

(** [s.split(sep)]; an empty separator raises [ValueError]. *)
Definition split (sep s : pystr) : result (list pystr) :=
  match sep with
  | [] => Raise (mkExn ValueError (lit "empty separator"))
  | c :: sep' => Ok (split_go c sep' s)
  end.

(** [l[i]] on a list, for [i >= 0]. *)
Definition index {A} (l : list A) (i : nat) : result A :=
  match l !! i with
  | Some x => Ok x
  | None => Raise (mkExn IndexError (lit "list index out of range"))
  end.

End Exn.

(** ** The SQL extractor *)

Module Extractor.
Import PyStr Exn.

Definition FENCE_SQL : pystr := lit "```sql".
Definition FENCE : pystr := lit "```".
Definition FROM_ACTORS : pystr := lit "FROM actors".
Definition FROM_ACTOR : pystr := lit "FROM actor".
Definition JOIN_ROLES : pystr := lit "JOIN roles".
Definition JOIN_FILM_ACTOR : pystr := lit "JOIN film_actor".

(** Lines 164-165: the two literal replacements, in order. *)
Definition fix_names (extracted : pystr) : pystr :=
  let extracted := replace FROM_ACTORS FROM_ACTOR extracted in
  let extracted := replace JOIN_ROLES JOIN_FILM_ACTOR extracted in
  extracted.

(** Lines 158-166. *)
Definition extract_sql (query_output : pystr) : result pystr :=
  extracted ←
    (if contains FENCE_SQL query_output && contains FENCE query_output then
       parts ← split FENCE_SQL query_output;
       after ← index parts 1;
       parts' ← split FENCE after;
       body ← index parts' 0;
       mret (strip body)
     else mret (strip query_output));
  mret (fix_names extracted).

(** The text [extract_sql] keeps, before the two replacements: behind
    the first marker, cut at the next marker and then at the next fence,
    or else the whole input; trimmed. *)
Definition selected (s : pystr) : pystr :=
  match find FENCE_SQL s with
  | Some i =>
      strip (before FENCE (before FENCE_SQL (drop (i + length FENCE_SQL) s)))
  | None => strip s
  end.

End Extractor.

(** ** The script: session, collaborators, handlers *)

Module App.
Import PyStr Exn Extractor.

Section app.
(** Objects of the external libraries: a [SQLDatabase] instance, what
    its [run] returns, and the state of everything outside the script
    (database server, model service). *)
Context {Handle QResult World : Type}.

(** The collaborators, as functions of the outside world. [from_uri]
    stands for lines 99-100: the import and [SQLDatabase.from_uri];
    [llm_invoke] for the prompt piped into the model bound to the stop
    sequences and the output parser. *)
Record Env := {
  from_uri : pystr → World → result Handle * World;
  get_table_info : Handle → World → result pystr * World;
  db_run : Handle → pystr → World → result QResult * World;
  llm_invoke : pystr → list pystr → World → result pystr * World;
}.

(** What [st.session_state] holds under a key. *)
Inductive pyval :=
| PyNone
| PyHandle (h : Handle).

(** What a run of the script shows, and the calls it makes to the
    collaborators, in order. *)
Inductive event :=
| SidebarSuccess (msg : pystr)
| SidebarError (msg : pystr)
| StWarning (msg : pystr)
| StSuccess (msg : pystr)
| StCode (body : pystr)
| StError (msg : pystr)
| StSubheader (msg : pystr)
| StWrite (r : QResult)
| CallFromUri (uri : pystr)
| CallTableInfo (h : Handle)
| CallLlm (prompt : pystr) (stop : list pystr)
| CallRun (h : Handle) (sql : pystr).

Record state := mkState {
  session_state : gmap string pyval;
  world : World;
  shown : list event;
}.

(** Programs: state passing, with exceptions. *)
Definition M (A : Type) : Type := state → result A * state.

#[export] Instance M_ret : MRet M := λ A a st, (Ok a, st).
#[export] Instance M_bind : MBind M := λ A B f m st,
  match m st with
  | (Ok a, st') => f a st'
  | (Raise e, st') => (Raise e, st')
  end.

Definition raise {A} (e : exn) : M A := λ st, (Raise e, st).

(** [try: body / except Exception as e: handler]. *)
Definition try_except {A} (body : M A) (handler : exn → M A) : M A := λ st,
  match body st with
  | (Ok a, st') => (Ok a, st')
  | (Raise e, st') => handler e st'
  end.

Definition emit (ev : event) : M unit := λ st,
  (Ok (), mkState (session_state st) (world st) (shown st ++ [ev])).

(** A call to a collaborator: recorded, then answered by the world. *)
Definition call {A} (ev : event) (f : World → result A * World) : M A := λ st,
  let '(r, w) := f (world st) in
  (r, mkState (session_state st) w (shown st ++ [ev])).

(** [st.session_state.get("db")]. *)
Definition lookup_db (st : state) : pyval :=
  default PyNone (session_state st !! "db").

Definition session_get_db : M pyval := λ st, (Ok (lookup_db st), st).

(** [st.session_state["db"] = v]. *)
Definition session_set_db (v : pyval) : M unit := λ st,
  (Ok (), mkState (<["db" := v]> (session_state st)) (world st) (shown st)).

(** Truth values of the objects the script tests: a [str] is false when
    empty; [None] is false and a [SQLDatabase], which defines neither
    [__bool__] nor [__len__], is true. *)
Definition truthy_str (s : pystr) : bool :=
  match s with
  | [] => false
  | _ :: _ => true
  end.

Definition truthy (v : pyval) : bool :=
  match v with
  | PyNone => false
  | PyHandle _ => true
  end.

(** *** What a program leaves untouched *)

(** An event other than the execution of a statement. *)
Definition quiet (ev : event) : Prop :=
  match ev with
  | CallRun _ _ => False
  | _ => True
  end.

(** [m] does not write the session, and every statement it executes
    goes to the handle the session held when [m] started. *)
Definition framed {A} (m : M A) : Prop :=
  ∀ st : state,
    session_state (m st).2 = session_state st ∧
    ∃ evs, shown (m st).2 = shown st ++ evs ∧
           ∀ h sql, CallRun h sql ∈ evs → lookup_db st = PyHandle h.

Context (env : Env).

(** Lines 83-84. *)
Definition init_session : M unit := λ st,
  match session_state st !! "db" with
  | None => session_set_db PyNone st
  | Some _ => (Ok (), st)
  end.

(** Line 98, the f-string. *)
Definition db_uri (host port database username password : pystr) : pystr :=
  lit "mysql+mysqlconnector://" ++ username ++ lit ":" ++ password
    ++ lit "@" ++ host ++ lit ":" ++ port ++ lit "/" ++ database.

(** Lines 96-104, the body under the [Connect to Database] button. *)
Definition connect (host port database username password : pystr) : M unit :=
  try_except
    (let uri := db_uri host port database username password in
     h ← call (CallFromUri uri) (from_uri env uri);
     session_set_db (PyHandle h);;
     emit (SidebarSuccess (lit "Connected to database successfully!")))
    (λ e,
      session_set_db PyNone;;
      emit (SidebarError (lit "Failed to connect to database: " ++ exn_msg e))).

(** Lines 134-146: the template, cut at its two fields. *)
Definition sql_template_head : pystr := lit "
You are an SQL generator. Given the following database schema and a natural language question,
provide only the SQL query that answers the question.
Use the table names exactly as provided in the schema.
For example, in the Sakila database, use 'actor' (not 'actors') and 'film_actor' for actor-film relationships.

".
Definition sql_template_mid : pystr := lit "

Question: ".
Definition sql_template_tail : pystr := lit "

Return only the SQL query with no additional explanation.
".

Definition sql_prompt (schema question : pystr) : pystr :=
  sql_template_head ++ schema ++ sql_template_mid ++ question
    ++ sql_template_tail.

Definition NO_DATABASE : pystr := lit "No database connected.".
Definition STOP : list pystr := [lit "
SQL Result:"].

(** Lines 153-156. *)
Definition get_schema : M pystr :=
  db ← session_get_db;
  match db with
  | PyNone => mret NO_DATABASE
  | PyHandle h => call (CallTableInfo h) (get_table_info env h)
  end.

(** Lines 168-173, run as line 195 does:
    [sql_chain.invoke({"question": question})]. *)
Definition sql_chain (question : pystr) : M pystr :=
  schema ← get_schema;
  call (CallLlm (sql_prompt schema question) STOP)
       (llm_invoke env (sql_prompt schema question) STOP).

(** Lines 178-181. *)
Definition run_generated_query (generated_sql : pystr) : M QResult :=
  db ← session_get_db;
  match db with
  | PyNone => raise (mkExn ValueError (lit "No database connection."))
  | PyHandle h => call (CallRun h generated_sql) (db_run env h generated_sql)
  end.

Definition lift_result {A} (r : result A) : M A := λ st, (r, st).

(** Lines 186-210, the body under the [Generate SQL Query] button.
    [generated_sql] is [None] until line 196 assigns it. *)
Definition generate (user_question : pystr) : M unit :=
  if negb (truthy_str user_question) then
    emit (StWarning (lit "Please enter a question to generate an SQL query."))
  else
    generated_sql ←
      try_except
        (raw_output ← sql_chain user_question;
         generated_sql ← lift_result (extract_sql raw_output);
         emit (StSuccess (lit "SQL Query Generated!"));;
         emit (StCode generated_sql);;
         mret (Some generated_sql))
        (λ e,
          emit (StError (lit "Error generating SQL: " ++ exn_msg e));;
          mret None);
    match generated_sql with
    | Some sql =>
        if truthy_str sql then
          db ← session_get_db;
          if truthy db then
            try_except
              (query_result ← run_generated_query sql;
               emit (StSubheader (lit "SQL Query Result:"));;
               emit (StWrite query_result))
              (λ e, emit (StError (lit "Error running query: " ++ exn_msg e)))
          else mret ()
        else mret ()
    | None => mret ()
    end.

(** The part of one run of the script that reads or writes the session
    or calls a collaborator, in the order of the file: lines 83-84, the
    body under the first button, the body under the second; at most one
    button reports a click. The statements of a run that do neither
    (the page set-up and static output of lines 15-94 and 115-124, the
    environment default of lines 109-110, the imports and the
    construction of prompt, client and chain at lines 129-151 and
    168-173) are not part of it. *)
Inductive click := NoClick | ClickConnect | ClickGenerate.

Record inputs := {
  host : pystr;
  port : pystr;
  database : pystr;
  username : pystr;
  password : pystr;
  user_question : pystr;
  clicked : click;
}.

Definition script (inp : inputs) : M unit :=
  init_session;;
  match clicked inp with
  | ClickConnect =>
      connect (host inp) (port inp) (database inp) (username inp) (password inp)
  | _ => mret ()
  end;;
  match clicked inp with
  | ClickGenerate => generate (user_question inp)
  | _ => mret ()
  end.

End app.

Arguments Env : clear implicits.
Arguments pyval : clear implicits.
Arguments event : clear implicits.
Arguments state : clear implicits.
Arguments M : clear implicits.

(** A small world to run the handlers in: handles are numbers, the
    database server refuses every connection attempt, and the world is
    the answer the model gives next. *)
Definition demo_env : Env nat pystr pystr := {|
  from_uri uri w := (Raise (mkExn OtherError (lit "Access denied for user 'root'")), w);
  get_table_info h w := (Ok (lit "CREATE TABLE actor (actor_id INT)"), w);
  db_run h sql w := (Ok (lit "[(200,)]"), w);
  llm_invoke prompt stop w := (Ok w, w);
|}.

(** A fresh session, and one that holds the handle [h]. *)
Definition demo_fresh (answer : pystr) : state nat pystr pystr :=
  mkState ∅ answer [].

Definition demo_connected (h : nat) (answer : pystr) : state nat pystr pystr :=
  mkState {["db" := PyHandle h]} answer [].

End App.

(** ** Facts about the string operations *)

Module PyStrFacts.
Import PyStr.

Lemma startswith_iff p s : startswith p s = true ↔ ∃ t, s = p ++ t.
Proof.
  revert s. induction p as [|a p IH]; intros s; simpl.
  - split; [eauto | done].
  - destruct s as [|b s]; [split; [done | intros [t [=]]] |].
    rewrite andb_true_iff, N.eqb_eq, IH. split.
    + intros [-> [t ->]]. eauto.
    + intros [t [= -> ->]]. eauto.
Qed.

Lemma startswith_cons a p b s :
  startswith (a :: p) (b :: s) = (a =? b)%N && startswith p s.
Proof. reflexivity. Qed.

Lemma startswith_app p t : startswith p (p ++ t) = true.
Proof. apply startswith_iff. eauto. Qed.

Lemma startswith_app_l p q s :
  startswith (p ++ q) s = true → startswith p s = true.
Proof.
  rewrite !startswith_iff. intros [t ->]. exists (q ++ t). by rewrite <-app_assoc.
Qed.

Lemma startswith_nil_r p : startswith p [] = true → p = [].
Proof. by destruct p. Qed.

(** [find] returns the first position at which the pattern starts. *)
Lemma find_Some sub s j :
  find sub s = Some j ↔
  startswith sub (drop j s) = true ∧
  ∀ k, k < j → startswith sub (drop k s) = false.
Proof.
  revert j. induction s as [|c s IH]; intros j.
  - simpl. rewrite drop_nil. destruct (startswith sub []) eqn:E.
    + split.
      * intros [= <-]. split; [done | lia].
      * intros [_ H]. destruct j as [|j]; [done |].
        specialize (H 0 ltac:(lia)). simpl in H. congruence.
    + split; [done | intros [? _]; congruence].
  - cbn [find]. destruct (startswith sub (c :: s)) eqn:E.
    + split.
      * intros [= <-]. split; [done | lia].
      * intros [_ H]. destruct j as [|j]; [done |].
        specialize (H 0 ltac:(lia)). simpl in H. congruence.
    + destruct j as [|j].
      * split; [by destruct (find sub s) | intros [H _]; simpl in H; congruence].
      * rewrite fmap_Some. split.
        -- intros (k & Hk & [= ->]). apply IH in Hk as [H1 H2].
           split; [done |]. intros [|i] Hi; [done |]. apply H2. lia.
        -- intros [H1 H2]. exists j. split; [| done]. apply IH. split; [done |].
           intros i Hi. apply (H2 (S i)). lia.
Qed.

Lemma find_None sub s :
  find sub s = None ↔ ∀ k, startswith sub (drop k s) = false.
Proof.
  induction s as [|c s IH].
  - simpl. destruct (startswith sub []) eqn:E.
    + split; [done |]. intros H. specialize (H 0). simpl in H. congruence.
    + split; [| done]. intros _ k. by rewrite drop_nil.
  - cbn [find]. destruct (startswith sub (c :: s)) eqn:E.
    + split; [done |]. intros H. specialize (H 0). simpl in H. congruence.
    + rewrite fmap_None, IH. split.
      * intros H [|k]; [done | apply H].
      * intros H k. apply (H (S k)).
Qed.

Lemma find_Some_0 sub s : startswith sub s = true → find sub s = Some 0.
Proof. intros H. apply find_Some. split; [done | lia]. Qed.

Lemma find_cons_miss sub c s :
  startswith sub (c :: s) = false → find sub (c :: s) = S <$> find sub s.
Proof. intros H. cbn [find]. by rewrite H. Qed.

(** The text splits around the first occurrence. *)
Lemma find_split sub s j :
  find sub s = Some j → s = take j s ++ sub ++ drop (j + length sub) s.
Proof.
  intros [[t Ht]%startswith_iff _]%find_Some.
  rewrite <-(take_drop j s) at 1. f_equal.
  rewrite <-drop_drop, Ht. by rewrite drop_app_length.
Qed.

Lemma contains_true sub s :
  contains sub s = true ↔ ∃ k, startswith sub (drop k s) = true.
Proof.
  unfold contains. destruct (find sub s) as [j|] eqn:E.
  - apply find_Some in E as [E _]. split; eauto.
  - split; [done |]. intros [k Hk]. rewrite (proj1 (find_None _ _) E) in Hk. done.
Qed.

Lemma contains_false sub s :
  contains sub s = false ↔ ∀ k, startswith sub (drop k s) = false.
Proof.
  unfold contains. destruct (find sub s) as [j|] eqn:E.
  - apply find_Some in E as [E _]. split; [done |]. intros H. congruence.
  - split; [| done]. intros _. by apply find_None.
Qed.

Lemma contains_false_find sub s : contains sub s = false ↔ find sub s = None.
Proof. unfold contains. by destruct (find sub s). Qed.

Lemma contains_cons sub c s :
  contains sub (c :: s) = startswith sub (c :: s) || contains sub s.
Proof.
  unfold contains. cbn [find].
  destruct (startswith sub (c :: s)); [done |]. by destruct (find sub s).
Qed.

Lemma contains_nil sub : contains sub [] = startswith sub [].
Proof. unfold contains. simpl. by destruct (startswith sub []). Qed.

Lemma contains_drop sub s n : contains sub s = false → contains sub (drop n s) = false.
Proof.
  rewrite !contains_false. intros H k. rewrite drop_drop. apply H.
Qed.

Lemma contains_app_intro sub a b : contains sub (a ++ sub ++ b) = true.
Proof.
  apply contains_true. exists (length a).
  rewrite drop_app_length. apply startswith_app.
Qed.

(** An occurrence of a longer pattern is an occurrence of each of its
    prefixes. *)
Lemma contains_prefix p q s :
  contains p s = false → contains (p ++ q) s = false.
Proof.
  rewrite !contains_false. intros H k.
  destruct (startswith (p ++ q) (drop k s)) eqn:E; [| done].
  apply startswith_app_l in E. rewrite H in E. done.
Qed.

(** *** [split] and [replace], one occurrence at a time *)

Lemma split_go_Some c sep' s j :
  find (c :: sep') s = Some j →
  split_go c sep' s =
  take j s :: split_go c sep' (drop (j + length (c :: sep')) s).
Proof.
  intros H. rewrite split_go_equation_1.
  destruct (inspect (find (c :: sep') s)) as [[j'|] E]; simpl.
  - rewrite H in E. by injection E as ->.
  - congruence.
Qed.

Lemma split_go_None c sep' s :
  find (c :: sep') s = None → split_go c sep' s = [s].
Proof.
  intros H. rewrite split_go_equation_1.
  destruct (inspect (find (c :: sep') s)) as [[j'|] E]; simpl; congruence.
Qed.

Lemma replace_go_Some c old' new s j :
  find (c :: old') s = Some j →
  replace_go c old' new s =
  take j s ++ new ++ replace_go c old' new (drop (j + length (c :: old')) s).
Proof.
  intros H. rewrite replace_go_equation_1.
  destruct (inspect (find (c :: old') s)) as [[j'|] E]; simpl.
  - rewrite H in E. by injection E as ->.
  - congruence.
Qed.

Lemma replace_go_None c old' new s :
  find (c :: old') s = None → replace_go c old' new s = s.
Proof.
  intros H. rewrite replace_go_equation_1.
  destruct (inspect (find (c :: old') s)) as [[j'|] E]; simpl; congruence.
Qed.

Lemma split_go_head c sep' s :
  ∃ rest, split_go c sep' s = before (c :: sep') s :: rest.
Proof.
  unfold before. destruct (find (c :: sep') s) as [j|] eqn:E.
  - rewrite (split_go_Some _ _ _ _ E). eauto.
  - rewrite (split_go_None _ _ _ E). eauto.
Qed.

(** The scan of [replace], read one character at a time. *)
Lemma replace_go_nil c old' new : replace_go c old' new [] = [].
Proof. by apply replace_go_None. Qed.

Lemma replace_go_hit c old' new s :
  startswith (c :: old') s = true →
  replace_go c old' new s =
  new ++ replace_go c old' new (drop (length (c :: old')) s).
Proof.
  intros H. by rewrite (replace_go_Some _ _ _ _ 0 (find_Some_0 _ _ H)), take_0.
Qed.

Lemma replace_go_miss c old' new b s :
  startswith (c :: old') (b :: s) = false →
  replace_go c old' new (b :: s) = b :: replace_go c old' new s.
Proof.
  intros H. pose proof (find_cons_miss _ _ _ H) as E.
  destruct (find (c :: old') s) as [j|] eqn:F.
  - rewrite (replace_go_Some _ _ _ _ (S j) E), (replace_go_Some _ _ _ _ j F). done.
  - rewrite (replace_go_None _ _ _ _ E), (replace_go_None _ _ _ _ F). done.
Qed.

(** Induction on the length of the text, for the loops that continue
    behind an occurrence. *)
Lemma length_ind (P : pystr → Prop) :
  (∀ s, (∀ t, length t < length s → P t) → P s) → ∀ s, P s.
Proof.
  intros step s. remember (length s) as n eqn:Hn. revert s Hn.
  induction n as [n IH] using lt_wf_ind. intros s ->.
  apply step. intros t Ht. by apply (IH (length t)).
Qed.

(** *** Occurrences of a pattern in the output of [replace] *)

Lemma startswith_app_inv p t x :
  startswith p (t ++ x) = true →
  startswith p t = true ∨ startswith t p = true.
Proof.
  revert p. induction t as [|b t IH]; intros p; [by right |].
  destruct p as [|a p]; [by left |]. simpl.
  intros [->%N.eqb_eq H]%andb_prop. rewrite N.eqb_refl. simpl. by apply IH.
Qed.

Lemma clash_app p t x : clash p t = true → startswith p (t ++ x) = false.
Proof.
  unfold clash. intros [H1 H2]%andb_prop.
  destruct (startswith p (t ++ x)) eqn:E; [| done].
  destruct (startswith_app_inv _ _ _ E) as [H|H]; rewrite H in *; done.
Qed.

Lemma no_start_app p new x k :
  no_start p new = true → k < length new →
  startswith p (drop k new ++ x) = false.
Proof.
  unfold no_start. rewrite forallb_forall. intros H Hk.
  apply clash_app, H, in_seq. lia.
Qed.

Section replace_output.
Context (c : N) (old' : pystr) (nh : N) (nt : pystr).

Local Abbreviation rep := (replace_go c old' (nh :: nt)).

(** A text that avoids the first character of the replacement, found
    at the head of the output, was at the head of the input. *)
Lemma startswith_replace_back q s :
  absent nh q = true →
  startswith q (rep s) = true → startswith q s = true.
Proof.
  revert s. induction q as [|d q IH]; intros s Hq H; [done |].
  simpl in Hq. apply andb_prop in Hq as [Hd Hq].
  destruct (startswith (c :: old') s) eqn:E.
  - rewrite replace_go_hit in H by done. simpl in H.
    apply andb_prop in H as [H _]. rewrite H in Hd. done.
  - destruct s as [|b s].
    + rewrite replace_go_nil in H. done.
    + rewrite replace_go_miss in H by done. simpl in H |- *.
      apply andb_prop in H as [-> H]. simpl. by apply IH.
Qed.

Context (ph : N) (q : pystr) (P : pystr → Prop).
Hypothesis P_tail : ∀ b s, P (b :: s) → P s.
Hypothesis q_absent : absent nh q = true.
Hypothesis P_miss :
  ∀ s, P s → startswith (c :: old') s = false → startswith (ph :: q) s = false.
Hypothesis P_hit :
  ∀ s k, P s → startswith (c :: old') s = true → k < length (nh :: nt) →
    startswith (ph :: q)
      (drop k (nh :: nt) ++ rep (drop (length (c :: old')) s)) = false.

Lemma P_drop n s : P s → P (drop n s).
Proof using P_tail.
  revert s. induction n as [|n IH]; intros [|b s] H; simpl; eauto.
Qed.

(** Under the hypotheses of this section the output of [replace] is
    free of the pattern [ph :: q]. *)
Lemma replace_go_clean s : P s → contains (ph :: q) (rep s) = false.
Proof using P_tail q_absent P_miss P_hit.
  induction s as [s IH] using length_ind. intros HP.
  destruct (startswith (c :: old') s) eqn:E.
  - rewrite replace_go_hit by done. apply contains_false. intros k.
    destruct (decide (k < length (nh :: nt))) as [Hk|Hk].
    + rewrite drop_app_le by lia. by apply P_hit.
    + rewrite drop_app_ge by lia. apply contains_false.
      apply IH; [| by apply P_drop].
      rewrite length_drop. apply startswith_length in E. simpl in *. lia.
  - destruct s as [|b s].
    + rewrite replace_go_nil, contains_nil. by apply P_miss.
    + rewrite replace_go_miss by done. rewrite contains_cons.
      apply orb_false_iff. split.
      * destruct (startswith (ph :: q) (b :: rep s)) eqn:F; [| done].
        simpl in F. apply andb_prop in F as [F1 F2].
        apply startswith_replace_back in F2; [| done].
        rewrite <-(P_miss (b :: s)); [| done | done].
        simpl. by rewrite F1, F2.
      * apply IH; [simpl; lia | by eapply P_tail].
Qed.
End replace_output.

(** The case in which the replacement text itself rules out every new
    occurrence. *)
Lemma replace_go_clean_static c old' nh nt ph q (P : pystr → Prop) :
  (∀ b s, P (b :: s) → P s) →
  absent nh q = true →
  no_start (ph :: q) (nh :: nt) = true →
  (∀ s, P s → startswith (c :: old') s = false → startswith (ph :: q) s = false) →
  ∀ s, P s → contains (ph :: q) (replace_go c old' (nh :: nt) s) = false.
Proof.
  intros Htl Hq Hns Hmiss. apply replace_go_clean; try done.
  intros s k _ _ Hk. by apply no_start_app.
Qed.

Lemma startswith_take sub n l :
  startswith sub (take n l) = true ↔
  startswith sub l = true ∧ length sub ≤ n.
Proof.
  revert n l. induction sub as [|a sub IH]; intros n l; simpl.
  - split; [intros _; split; [done | lia] | done].
  - destruct l as [|b l]; [rewrite take_nil; split; [done | by intros [? _]] |].
    destruct n as [|n]; simpl; [split; [done | lia] |].
    rewrite !andb_true_iff, IH. split; [intros (? & ? & ?) | intros ((? & ?) & ?)];
      repeat split; try done; lia.
Qed.

Lemma drop_take_swap (l : pystr) k n : drop k (take n l) = take (n - k) (drop k l).
Proof. apply skipn_firstn_comm. Qed.

(** Cutting a text behind the first occurrence keeps it first; cutting
    into it removes every occurrence. *)
Lemma find_take_keep sub r p n :
  find sub r = Some p → p + length sub ≤ n → find sub (take n r) = Some p.
Proof.
  intros [H1 H2]%find_Some Hn. apply find_Some. split.
  - rewrite drop_take_swap. apply startswith_take. split; [done | lia].
  - intros k Hk. specialize (H2 k Hk). rewrite drop_take_swap.
    destruct (startswith sub (take (n - k) (drop k r))) eqn:E; [| done].
    apply startswith_take in E as [E _]. congruence.
Qed.

Lemma find_take_cut sub r p n :
  find sub r = Some p → n < p + length sub → find sub (take n r) = None.
Proof.
  intros [H1 H2]%find_Some Hn. apply find_None. intros k.
  rewrite drop_take_swap.
  destruct (startswith sub (take (n - k) (drop k r))) eqn:E; [| done].
  apply startswith_take in E as [E Hlen].
  destruct (decide (k < p)) as [Hk|Hk]; [rewrite H2 in E; done |].
  destruct sub as [|a sub]; simpl in *; [| lia].
  specialize (H2 0 ltac:(lia)). done.
Qed.

Lemma contains_tail p b s : contains p (b :: s) = false → contains p s = false.
Proof. rewrite contains_cons. by intros [_ ?]%orb_false_iff. Qed.

Lemma contains_head p s : contains p s = false → startswith p s = false.
Proof. rewrite contains_false. intros H. apply (H 0). Qed.

End PyStrFacts.

(** ** Facts about the extractor *)

Module ExtractorFacts.
Import PyStr Exn Extractor PyStrFacts.

Lemma marker_is_fence s : startswith FENCE_SQL s = true → startswith FENCE s = true.
Proof. apply (startswith_app_l FENCE (lit "sql")). Qed.

Lemma marker_contains_fence s :
  contains FENCE_SQL s = true → contains FENCE s = true.
Proof.
  destruct (contains FENCE s) eqn:E; [done |].
  apply (contains_prefix _ (lit "sql")) in E.
  change (FENCE ++ lit "sql") with FENCE_SQL in E. congruence.
Qed.

(** [extract_sql] never raises, and returns the replacements applied to
    the selected text. *)
Lemma extract_sql_selected s : extract_sql s = Ok (fix_names (selected s)).
Proof.
  unfold extract_sql, selected.
  destruct (find FENCE_SQL s) as [i|] eqn:E.
  - assert (contains FENCE_SQL s = true) as H1 by (unfold contains; by rewrite E).
    rewrite H1, (marker_contains_fence _ H1). cbn [andb].
    change FENCE_SQL with (96%N :: lit "``sql") in *.
    change FENCE with (96%N :: lit "``") in *.
    cbn [split]. rewrite (split_go_Some _ _ _ _ E). cbn [mbind result_bind].
    destruct (split_go_head 96 (lit "``sql") (drop (i + length (96%N :: lit "``sql")) s))
      as [rest ->].
    cbn [index lookup list_lookup mbind result_bind].
    destruct (split_go_head 96 (lit "``")
                (before (96%N :: lit "``sql") (drop (i + length (96%N :: lit "``sql")) s)))
      as [rest' ->].
    reflexivity.
  - assert (contains FENCE_SQL s = false) as H1 by (unfold contains; by rewrite E).
    rewrite H1. reflexivity.
Qed.

Lemma before_closing_fence r p :
  find FENCE r = Some p →
  startswith FENCE_SQL (drop (p + 1) r) = false →
  startswith FENCE_SQL (drop (p + 2) r) = false →
  before FENCE (before FENCE_SQL r) = take p r.
Proof.
  intros Hp N1 N2. unfold before at 2.
  destruct (find FENCE_SQL r) as [q|] eqn:Eq.
  - pose proof Eq as [Hq _]%find_Some. pose proof Hp as [_ Hp']%find_Some.
    assert (p ≤ q) as Hle.
    { destruct (decide (p ≤ q)) as [|Hn]; [done |].
      pose proof (marker_is_fence _ Hq) as Hf. rewrite Hp' in Hf; [done | lia]. }
    assert (q = p ∨ p + 3 ≤ q) as [->|Hge].
    { destruct (decide (q = p + 1)) as [->|]; [congruence |].
      destruct (decide (q = p + 2)) as [->|]; [congruence |]. lia. }
    + unfold before. rewrite (find_take_cut _ _ p); [done | done |].
      change (length FENCE) with 3. lia.
    + unfold before. rewrite (find_take_keep _ _ p); [| done |].
      * rewrite take_take. f_equal. lia.
      * change (length FENCE) with 3. lia.
  - unfold before. by rewrite Hp.
Qed.

(** *** The two replacements and the patterns they search for *)

Lemma replace_id old new s :
  old ≠ [] → contains old s = false → replace old new s = s.
Proof.
  destruct old as [|c old']; [done |]. intros _ H.
  by apply replace_go_None, contains_false_find.
Qed.

Lemma startswith_app_same p q x : startswith (p ++ q) (p ++ x) = startswith q x.
Proof. induction p as [|a p IH]; [done |]. simpl. by rewrite N.eqb_refl. Qed.

(** The second replacement leaves no search string of its own behind. *)
Lemma join_roles_gone s :
  contains JOIN_ROLES (replace JOIN_ROLES JOIN_FILM_ACTOR s) = false.
Proof.
  change (replace JOIN_ROLES JOIN_FILM_ACTOR s)
    with (replace_go 74 (lit "OIN roles") (74%N :: lit "OIN film_actor") s).
  change JOIN_ROLES with (74%N :: lit "OIN roles").
  apply (replace_go_clean_static _ _ _ _ _ _ (λ _, True));
    [done | by vm_compute | by vm_compute | done | done].
Qed.

(** The second replacement creates no search string of the first. *)
Lemma join_roles_keeps_from_actors_out s :
  contains FROM_ACTORS s = false →
  contains FROM_ACTORS (replace JOIN_ROLES JOIN_FILM_ACTOR s) = false.
Proof.
  change (replace JOIN_ROLES JOIN_FILM_ACTOR s)
    with (replace_go 74 (lit "OIN roles") (74%N :: lit "OIN film_actor") s).
  change FROM_ACTORS with (70%N :: lit "ROM actors").
  apply (replace_go_clean_static _ _ _ _ _ _
           (λ s, contains (70%N :: lit "ROM actors") s = false));
    [apply contains_tail | by vm_compute | by vm_compute |].
  intros s' H _. by apply contains_head.
Qed.

(** The first replacement creates no search string of the second. *)
Lemma from_actors_keeps_join_roles_out s :
  contains JOIN_ROLES s = false →
  contains JOIN_ROLES (replace FROM_ACTORS FROM_ACTOR s) = false.
Proof.
  change (replace FROM_ACTORS FROM_ACTOR s)
    with (replace_go 70 (lit "ROM actors") (70%N :: lit "ROM actor") s).
  change JOIN_ROLES with (74%N :: lit "OIN roles").
  apply (replace_go_clean_static _ _ _ _ _ _
           (λ s, contains (74%N :: lit "OIN roles") s = false));
    [apply contains_tail | by vm_compute | by vm_compute |].
  intros s' H _. by apply contains_head.
Qed.

(** The first replacement leaves its own search string behind exactly
    where a replaced occurrence was followed by another [s]. *)
Lemma from_actors_gone s :
  contains (FROM_ACTORS ++ lit "s") s = false →
  contains FROM_ACTORS (replace FROM_ACTORS FROM_ACTOR s) = false.
Proof.
  change (replace FROM_ACTORS FROM_ACTOR s)
    with (replace_go 70 (lit "ROM actors") (70%N :: lit "ROM actor") s).
  change FROM_ACTORS with (70%N :: lit "ROM actors").
  apply (replace_go_clean _ _ _ _ _ _
           (λ s, contains ((70%N :: lit "ROM actors") ++ lit "s") s = false));
    [apply contains_tail | by vm_compute | by intros s' _ H |].
  intros s' k HP Hst Hk. destruct k as [|k].
  - set (x := replace_go _ _ _ _).
    destruct (startswith _ (drop 0 _ ++ x)) eqn:F; [| done].
    change (startswith ((70%N :: lit "ROM actor") ++ lit "s")
              ((70%N :: lit "ROM actor") ++ x) = true) in F.
    rewrite startswith_app_same in F. subst x.
    apply startswith_replace_back in F; [| by vm_compute].
    apply startswith_iff in Hst as [t ->].
    rewrite drop_app_length in F. apply startswith_iff in F as [t' ->].
    apply contains_head in HP. rewrite app_assoc, startswith_app in HP. done.
  - apply clash_app.
    assert (forallb (λ k, clash (70%N :: lit "ROM actors")
                            (drop (S k) (70%N :: lit "ROM actor")))
              (seq 0 9) = true) as Hall by (by vm_compute).
    rewrite forallb_forall in Hall. apply Hall, in_seq. simpl in Hk. lia.
Qed.

(** *** Where the first replacement is not idempotent *)

Lemma contains_app_r p a b : contains p b = true → contains p (a ++ b) = true.
Proof.
  rewrite !contains_true. intros [k Hk]. exists (length a + k).
  by rewrite drop_app_add.
Qed.

Lemma contains_cons_r p b s : contains p s = true → contains p (b :: s) = true.
Proof. apply (contains_app_r p [b]). Qed.

(** A text that avoids the first character of the search string, found
    at the head of the input, is at the head of the output. *)
Lemma startswith_replace_forth c old' new q s :
  absent c q = true →
  startswith q s = true → startswith q (replace_go c old' new s) = true.
Proof.
  revert s. induction q as [|d q IH]; intros s Hq H; [done |].
  destruct s as [|b s]; [done |]. simpl in Hq, H.
  apply andb_prop in Hq as [Hd Hq]. apply andb_prop in H as [->%N.eqb_eq H].
  rewrite replace_go_miss.
  - simpl. rewrite N.eqb_refl. by apply IH.
  - simpl. rewrite N.eqb_sym. by destruct (b =? c)%N.
Qed.

Lemma replace_go_length c old' new s :
  length new ≤ length (c :: old') →
  length (replace_go c old' new s) ≤ length s.
Proof.
  intros Hlen. induction s as [s IH] using length_ind.
  destruct (startswith (c :: old') s) eqn:E.
  - rewrite replace_go_hit by done. apply startswith_length in E.
    rewrite length_app.
    pose proof (IH (drop (length (c :: old')) s)) as IH'.
    rewrite length_drop in IH'. simpl in *. lia.
  - destruct s as [|b s]; [by rewrite replace_go_nil |].
    rewrite replace_go_miss by done. simpl.
    specialize (IH s ltac:(simpl; lia)). lia.
Qed.

Lemma from_actors_left s :
  contains (FROM_ACTORS ++ lit "s") s = true →
  contains FROM_ACTORS (replace FROM_ACTORS FROM_ACTOR s) = true.
Proof.
  change (replace FROM_ACTORS FROM_ACTOR s)
    with (replace_go 70 (lit "ROM actors") FROM_ACTOR s).
  induction s as [s IH] using length_ind. intros H.
  destruct (startswith (70%N :: lit "ROM actors") s) eqn:E.
  - rewrite replace_go_hit by done.
    apply startswith_iff in E as [t ->]. rewrite drop_app_length.
    destruct (startswith (lit "s") t) eqn:F.
    + apply contains_true. exists 0.
      change (startswith (FROM_ACTOR ++ lit "s")
                (FROM_ACTOR ++ replace_go 70 (lit "ROM actors") FROM_ACTOR t) = true).
      rewrite startswith_app_same.
      by apply startswith_replace_forth.
    + apply contains_app_r, IH; [rewrite length_app; simpl; lia |].
      apply contains_true in H as [k Hk]. apply contains_true.
      destruct (decide (k < 11)) as [Hlt|Hge].
      * exfalso. destruct k as [|k].
        -- change (startswith (FROM_ACTORS ++ lit "s") (FROM_ACTORS ++ t) = true) in Hk.
           rewrite startswith_app_same in Hk. congruence.
        -- rewrite drop_app_le in Hk by (simpl; lia).
           rewrite clash_app in Hk; [done |].
           assert (forallb (λ k, clash (FROM_ACTORS ++ lit "s")
                                   (drop (S k) (70%N :: lit "ROM actors")))
                     (seq 0 10) = true) as Hall by (by vm_compute).
           rewrite forallb_forall in Hall. apply Hall, in_seq. lia.
      * exists (k - 11). rewrite drop_app_ge in Hk by (simpl; lia). done.
  - destruct s as [|b s]; [done |].
    rewrite replace_go_miss by done. apply contains_cons_r.
    rewrite contains_cons in H. apply orb_prop in H as [H|H].
    + apply startswith_app_l in H. change FROM_ACTORS with (70%N :: lit "ROM actors") in H.
      congruence.
    + apply IH; [simpl; lia | done].
Qed.

Lemma join_roles_keeps_from_actors s :
  contains FROM_ACTORS s = true →
  contains FROM_ACTORS (replace JOIN_ROLES JOIN_FILM_ACTOR s) = true.
Proof.
  change (replace JOIN_ROLES JOIN_FILM_ACTOR s)
    with (replace_go 74 (lit "OIN roles") JOIN_FILM_ACTOR s).
  induction s as [s IH] using length_ind. intros H.
  destruct (startswith (74%N :: lit "OIN roles") s) eqn:E.
  - rewrite replace_go_hit by done.
    apply startswith_iff in E as [t ->]. rewrite drop_app_length.
    apply contains_app_r, IH; [rewrite length_app; simpl; lia |].
    apply contains_true in H as [k Hk]. apply contains_true.
    destruct (decide (k < 10)) as [Hlt|Hge].
    + rewrite drop_app_le in Hk by (simpl; lia).
      rewrite (no_start_app FROM_ACTORS (74%N :: lit "OIN roles")) in Hk;
        [done | by vm_compute | simpl; lia].
    + exists (k - 10). rewrite drop_app_ge in Hk by (simpl; lia). done.
  - destruct s as [|b s]; [done |].
    rewrite replace_go_miss by done.
    rewrite contains_cons in H. apply orb_prop in H as [H|H].
    + apply contains_true. exists 0. rewrite drop_0.
      change FROM_ACTORS with (70%N :: lit "ROM actors") in *.
      rewrite startswith_cons in H |- *. apply andb_prop in H as [-> H].
      rewrite andb_true_l. apply startswith_replace_forth; [by vm_compute | done].
    + apply contains_cons_r, IH; [simpl; lia | done].
Qed.

(** X8. On a string that holds ["FROM actorss"], a second application
    of the two replacements changes the result again. *)
Lemma fix_names_twice_differs s :
  contains (FROM_ACTORS ++ lit "s") s = true →
  fix_names (fix_names s) ≠ fix_names s.
Proof.
  intros H%from_actors_left%join_roles_keeps_from_actors.
  unfold fix_names at 1. fold (fix_names s) in H.
  pose proof (join_roles_gone (replace FROM_ACTORS FROM_ACTOR s)) as Hjr.
  fold (fix_names s) in Hjr. revert H Hjr. generalize (fix_names s). intros u H Hjr.
  rewrite (replace_id JOIN_ROLES);
    [| done | by apply from_actors_keeps_join_roles_out].
  intros Heq. apply (f_equal length) in Heq.
  unfold contains in H. destruct (find FROM_ACTORS u) as [j|] eqn:Hj; [| done].
  change (replace FROM_ACTORS FROM_ACTOR u)
    with (replace_go 70 (lit "ROM actors") FROM_ACTOR u) in Heq.
  change FROM_ACTORS with (70%N :: lit "ROM actors") in Hj.
  rewrite (replace_go_Some _ _ _ _ _ Hj) in Heq.
  pose proof (find_bound _ _ _ Hj) as Hb.
  pose proof (replace_go_length 70 (lit "ROM actors") FROM_ACTOR
                (drop (j + length (70%N :: lit "ROM actors")) u)
                ltac:(simpl; lia)) as Hl.
  rewrite !length_app, length_take, length_drop in *. simpl in *. lia.
Qed.

End ExtractorFacts.

(** ** Facts about trimming and about texts cut at a pattern *)

Module StripFacts.
Import PyStr Exn Extractor PyStrFacts ExtractorFacts.

(** *** Trimming *)

Lemma lstrip_head_ok s : head_ok (lstrip s) = true.
Proof.
  induction s as [|c s IH]; [done |]. simpl.
  destruct (is_space c) eqn:E; [done |]. simpl. by rewrite E.
Qed.

Lemma lstrip_id s : head_ok s = true → lstrip s = s.
Proof. destruct s as [|c s]; [done |]. simpl. by destruct (is_space c). Qed.

Lemma lstrip_snoc u c : is_space c = false → lstrip (u ++ [c]) = lstrip u ++ [c].
Proof.
  intros Hc. induction u as [|d u IH]; simpl; [by rewrite Hc |].
  by destruct (is_space d).
Qed.

Lemma lstrip_suffix s : ∃ a, s = a ++ lstrip s.
Proof.
  induction s as [|c s [a IH]]; [by exists [] |]. simpl.
  destruct (is_space c); [| by exists []].
  exists (c :: a). simpl. by rewrite <-IH.
Qed.

Lemma rstrip_prefix s : ∃ b, s = rstrip s ++ b.
Proof.
  unfold rstrip. destruct (lstrip_suffix (reverse s)) as [a Ha].
  exists (reverse a). rewrite <-reverse_app, <-Ha. by rewrite reverse_involutive.
Qed.

Lemma rstrip_id s : head_ok (reverse s) = true → rstrip s = s.
Proof. intros H. unfold rstrip. by rewrite lstrip_id, reverse_involutive. Qed.

Lemma rstrip_last_ok s : head_ok (reverse (rstrip s)) = true.
Proof. unfold rstrip. rewrite reverse_involutive. apply lstrip_head_ok. Qed.

Lemma rstrip_head_ok s : head_ok s = true → head_ok (rstrip s) = true.
Proof.
  destruct s as [|c s]; [done |]. simpl. intros Hc%negb_true_iff.
  unfold rstrip. rewrite reverse_cons, lstrip_snoc by done.
  rewrite reverse_app. simpl. by rewrite Hc.
Qed.

Lemma strip_ends_ok s :
  head_ok (strip s) = true ∧ head_ok (reverse (strip s)) = true.
Proof.
  unfold strip. split; [apply rstrip_head_ok, lstrip_head_ok | apply rstrip_last_ok].
Qed.

Lemma strip_id s :
  head_ok s = true → head_ok (reverse s) = true → strip s = s.
Proof. intros H1 H2. unfold strip. rewrite (lstrip_id s H1). by apply rstrip_id. Qed.

(** [strip] keeps a piece of its argument. *)
Lemma strip_substring s : ∃ a b, s = a ++ strip s ++ b.
Proof.
  unfold strip. destruct (lstrip_suffix s) as [a Ha].
  destruct (rstrip_prefix (lstrip s)) as [b Hb].
  exists a, b. by rewrite <-Hb.
Qed.

(** [strip] cuts off white space only, and all of it. *)
Lemma lstrip_split s :
  ∃ a, s = a ++ lstrip s ∧ Forall (λ c, is_space c = true) a.
Proof.
  induction s as [|c s (a & IH & Ha)]; [by exists [] |]. simpl.
  destruct (is_space c) eqn:E; [| by exists []].
  exists (c :: a). split; [simpl; by rewrite <-IH | by constructor].
Qed.

Lemma rstrip_split s :
  ∃ b, s = rstrip s ++ b ∧ Forall (λ c, is_space c = true) b.
Proof.
  unfold rstrip. destruct (lstrip_split (reverse s)) as (a & Ha & Hsp).
  exists (reverse a). split; [| by apply Forall_reverse].
  rewrite <-reverse_app, <-Ha. by rewrite reverse_involutive.
Qed.

Lemma head_ok_head s c : head_ok s = true → head s = Some c → is_space c = false.
Proof. destruct s; [done |]. simpl. intros H%negb_true_iff [= <-]. done. Qed.

Lemma strip_trims x : trims_to x (strip x).
Proof.
  destruct (lstrip_split x) as (a & Ha & Hsa).
  destruct (rstrip_split (lstrip x)) as (b & Hb & Hsb).
  destruct (strip_ends_ok x) as [H1 H2].
  exists a, b. unfold strip at 1. rewrite <-Hb.
  repeat split; try done.
  - intros c. by apply head_ok_head.
  - intros c. rewrite <-head_reverse. by apply head_ok_head.
Qed.

(** *** Texts joined by an unbordered pattern *)

(** Behind a text free of [p], the first occurrence of [p] is the copy
    that follows it. *)
Lemma find_after_free p a rest :
  unbordered p = true → contains p a = false →
  find p (a ++ p ++ rest) = Some (length a).
Proof.
  intros Hp Ha. apply find_Some. split.
  - rewrite drop_app_length. apply startswith_app.
  - intros k Hk. rewrite drop_app_le by lia.
    destruct (startswith p (drop k a ++ p ++ rest)) eqn:E; [| done]. exfalso.
    pose proof (proj1 (contains_false _ _) Ha k) as Hka.
    destruct (startswith_app_inv _ _ _ E) as [H|H]; [congruence |].
    assert (length (drop k a) ≠ 0) as Hx by (rewrite length_drop; lia).
    revert E Hka H Hx. generalize (drop k a). intros x E Hka [y Hy]%startswith_iff Hx.
    assert (startswith y (p ++ rest) = true) as E'.
    { rewrite <-(startswith_app_same x y (p ++ rest)), <-Hy. exact E. }
    assert (y = drop (length x) p) as Hyd by (by rewrite Hy, drop_app_length).
    destruct (decide (length x < length p)) as [Hlt|Hge].
    + unfold unbordered in Hp. rewrite forallb_forall in Hp.
      specialize (Hp (length x - 1)).
      replace (S (length x - 1)) with (length x) in Hp by lia.
      rewrite <-Hyd in Hp. rewrite clash_app in E'; [done |].
      apply Hp, in_seq. lia.
    + pose proof (f_equal length Hy) as Hl. rewrite length_app in Hl.
      assert (y = []) as -> by (destruct y; [done | simpl in Hl; lia]).
      rewrite app_nil_r in Hy. subst x.
      pose proof (startswith_app p []) as Hpp. rewrite app_nil_r in Hpp. congruence.
Qed.

(** Replacing an unbordered pattern in pieces joined by it joins the
    pieces by the replacement. *)
Lemma replace_go_join c old' new (pieces : list pystr) :
  unbordered (c :: old') = true →
  Forall (λ p, contains (c :: old') p = false) pieces →
  replace_go c old' new (join (c :: old') pieces) = join new pieces.
Proof.
  intros Hu. induction pieces as [|p [|p' ps] IH]; intros HF.
  - apply replace_go_nil.
  - apply replace_go_None, contains_false_find. by inversion HF.
  - apply Forall_cons in HF as [Hp HF].
    change (join (c :: old') (p :: p' :: ps))
      with (p ++ (c :: old') ++ join (c :: old') (p' :: ps)).
    rewrite (replace_go_Some _ _ _ _ _ (find_after_free _ _ _ Hu Hp)).
    rewrite take_app_length, drop_app_add, drop_app_length, IH by done.
    done.
Qed.

(** Every text is made of pieces free of the pattern, joined by it. *)
Lemma pieces_exist (p t : pystr) :
  p ≠ [] →
  ∃ pieces, pieces ≠ [] ∧ t = join p pieces ∧
            Forall (λ x, contains p x = false) pieces.
Proof.
  intros Hp. induction t as [t IH] using length_ind.
  destruct (find p t) as [j|] eqn:E.
  - pose proof (find_split _ _ _ E) as Ht. pose proof (find_bound _ _ _ E) as Hb.
    destruct (IH (drop (j + length p) t)) as (ps & Hne & Hj & HF).
    { rewrite length_drop. destruct p; [done | simpl in *; lia]. }
    exists (take j t :: ps). split; [done |]. split.
    + destruct ps as [|q qs]; [done |].
      change (join p (take j t :: q :: qs)) with (take j t ++ p ++ join p (q :: qs)).
      by rewrite <-Hj.
    + constructor; [| done]. apply contains_false_find, (find_take_cut _ _ j); [done |].
      destruct p; [done | simpl; lia].
  - exists [t]. split; [done |]. split; [done |].
    constructor; [by apply contains_false_find | constructor].
Qed.

End StripFacts.

(** ** Properties of the extractor *)

Section extractor_properties.
Import PyStr Exn Extractor PyStrFacts ExtractorFacts StripFacts.

(** C1 (as amended). When the first [```sql] marker of the input is
  followed by a closing [```] (the first one behind the marker, no
  further [```sql] marker starting at its second or third backquote),
  [extract_sql] returns the text strictly between the two, trimmed,
  with the two literal replacements applied. When the input contains
  no [```sql] marker, it returns the whole input, trimmed, with the two
  literal replacements applied. *)
Theorem extract_sql_fenced_or_plain (s : pystr) :
(∀ i p,
   find FENCE_SQL s = Some i →
   let r := drop (i + length FENCE_SQL) s in
   find FENCE r = Some p →
   startswith FENCE_SQL (drop (p + 1) r) = false →
   startswith FENCE_SQL (drop (p + 2) r) = false →
   extract_sql s = Ok (fix_names (strip (take p r)))) ∧
(contains FENCE_SQL s = false →
   extract_sql s = Ok (fix_names (strip s))).
Proof.
split.
- intros i p Hi r Hp N1 N2.
  rewrite extract_sql_selected. unfold selected. rewrite Hi.
  fold r. by rewrite (before_closing_fence r p).
- intros H%contains_false_find.
  rewrite extract_sql_selected. unfold selected. by rewrite H.
Qed.

Lemma extract_sql_fenced_or_plain_witness :
extract_sql (lit "Sure: ```sql
SELECT 1
``` done") = Ok (lit "SELECT 1") ∧
extract_sql (lit "  SELECT 2  ") = Ok (lit "SELECT 2").
Proof.
split.
- exact (proj1 (extract_sql_fenced_or_plain (lit "Sure: ```sql
SELECT 1
``` done")) 6 10 eq_refl eq_refl eq_refl eq_refl).
- exact (proj2 (extract_sql_fenced_or_plain (lit "  SELECT 2  ")) eq_refl).
Defined.

(** C1 as claimed fails on the code. With a closed fence the result is
  not the trimmed text between the fences when that text holds one of
  the two search strings; with an opening marker and no closing fence
  the result is not the whole trimmed input. *)
Lemma extract_sql_fence_claim_fails :
let s1 := lit "```sql
SELECT * FROM actors
```" in
let s2 := lit "```sql SELECT 1" in
(find FENCE_SQL s1 = Some 0 ∧
 find FENCE (drop 6 s1) = Some 22 ∧
 strip (take 22 (drop 6 s1)) = lit "SELECT * FROM actors" ∧
 extract_sql s1 = Ok (lit "SELECT * FROM actor") ∧
 extract_sql s1 ≠ Ok (strip (take 22 (drop 6 s1)))) ∧
(find FENCE_SQL s2 = Some 0 ∧
 find FENCE (drop 6 s2) = None ∧
 fix_names (strip s2) = lit "```sql SELECT 1" ∧
 extract_sql s2 = Ok (lit "SELECT 1") ∧
 extract_sql s2 ≠ Ok (fix_names (strip s2))).
Proof. vm_compute. repeat split; discriminate. Qed.

(** The side condition of the first half is needed: here the closing
  fence is also the start of a second marker, and [split] cuts at the
  marker one character later. *)
Example extract_sql_overlapping_marker :
extract_sql (lit "```sql````sql") = Ok (lit "`").
Proof. reflexivity. Qed.

(** C2 (as amended). On every string that does not contain
  ["FROM actorss"], applying the two literal replacements twice gives
  the same result as applying them once. *)
Theorem fix_names_idempotent (s : pystr) :
contains (lit "FROM actorss") s = false →
fix_names (fix_names s) = fix_names s.
Proof.
intros H. unfold fix_names.
pose proof (from_actors_gone s H) as H1.
apply join_roles_keeps_from_actors_out in H1.
rewrite (replace_id FROM_ACTORS); [| done | done].
apply replace_id; [done | apply join_roles_gone].
Qed.

Lemma fix_names_idempotent_witness :
let s := lit "SELECT * FROM actors a JOIN roles r" in
contains (lit "FROM actorss") s = false ∧
fix_names (fix_names s) = fix_names s.
Proof.
split; [reflexivity |]. apply fix_names_idempotent. reflexivity.
Defined.

(** C2 as claimed fails: the first replacement turns ["FROM actorss"]
  into ["FROM actors"], which a second pass replaces again. *)
Lemma fix_names_not_idempotent :
fix_names (lit "FROM actorss") = lit "FROM actors" ∧
fix_names (fix_names (lit "FROM actorss")) = lit "FROM actor" ∧
fix_names (fix_names (lit "FROM actorss")) ≠ fix_names (lit "FROM actorss").
Proof. vm_compute. repeat split; discriminate. Qed.

(** C4 (as amended). [extract_sql] puts ["FROM actor"] in place of
    every occurrence of ["FROM actors"] in the text it selects (the
    fence content if a [```sql] marker is present, otherwise the whole
    input; trimmed): when that text is written as pieces free of
    ["FROM actors"] joined by it, as every text can be
    ([StripFacts.pieces_exist]), the output is the same pieces joined by
    ["FROM actor"], with the second replacement applied. When the
    selected text does not contain ["JOIN roles"], no other character
    is altered. *)
Theorem extract_sql_from_actors (s : pystr) (pieces : list pystr) :
  selected s = join FROM_ACTORS pieces →
  Forall (λ p, contains FROM_ACTORS p = false) pieces →
  extract_sql s =
    Ok (replace JOIN_ROLES JOIN_FILM_ACTOR (join FROM_ACTOR pieces)) ∧
  (contains JOIN_ROLES (selected s) = false →
   extract_sql s = Ok (join FROM_ACTOR pieces)).
Proof.
  intros Hsel HF. rewrite extract_sql_selected. unfold fix_names.
  assert (replace FROM_ACTORS FROM_ACTOR (selected s) = join FROM_ACTOR pieces) as E.
  { rewrite Hsel.
    change (replace FROM_ACTORS FROM_ACTOR ?x)
      with (replace_go 70 (lit "ROM actors") FROM_ACTOR x).
    apply replace_go_join; [by vm_compute | done]. }
  rewrite E. split; [done |]. intros Hjr. f_equal.
  apply replace_id; [done |]. rewrite <-E.
  by apply from_actors_keeps_join_roles_out.
Qed.

Lemma extract_sql_from_actors_witness :
  let s := lit "Here you go: ```sql
SELECT * FROM actors a WHERE a.id IN (SELECT id FROM actors)
```" in
  selected s = join FROM_ACTORS [lit "SELECT * "; lit " a WHERE a.id IN (SELECT id "; lit ")"] ∧
  extract_sql s =
    Ok (lit "SELECT * FROM actor a WHERE a.id IN (SELECT id FROM actor)").
Proof.
  intros s. split; [reflexivity |].
  refine (proj2 (extract_sql_from_actors s
                   [lit "SELECT * "; lit " a WHERE a.id IN (SELECT id "; lit ")"]
                   eq_refl _) eq_refl).
  repeat constructor.
Defined.

(** C4 as claimed fails: an occurrence outside the fenced block is
  dropped with the surrounding prose, so the output has no
  ["FROM actor"] at all. *)
Lemma extract_sql_from_actors_outside_fence :
let s := lit "FROM actors ```sql SELECT 1```" in
contains FROM_ACTORS s = true ∧
extract_sql s = Ok (lit "SELECT 1") ∧
contains FROM_ACTOR (lit "SELECT 1") = false.
Proof. vm_compute. repeat split. Qed.

(** C8. Every input that contains the [```sql] marker passes the guard
    of [extract_sql] (the test for a fence holds by the marker itself)
    and yields the text behind the first marker, cut at the next marker
    and at the next fence if there are any, trimmed, with the two
    replacements applied. When no fence follows the first marker, that
    is all the text behind the marker. Trimmed means: white space, and
    nothing else, is cut off at both ends until neither end is white
    space. *)
Theorem extract_sql_marker (s : pystr) (i : nat) :
  find FENCE_SQL s = Some i →
  let r := drop (i + length FENCE_SQL) s in
  contains FENCE_SQL s && contains FENCE s = true ∧
  extract_sql s = Ok (fix_names (strip (before FENCE (before FENCE_SQL r)))) ∧
  trims_to (before FENCE (before FENCE_SQL r))
           (strip (before FENCE (before FENCE_SQL r))) ∧
  (contains FENCE r = false →
   extract_sql s = Ok (fix_names (strip r)) ∧ trims_to r (strip r)).
Proof.
  intros Hi r.
  assert (contains FENCE_SQL s = true) as H1 by (unfold contains; by rewrite Hi).
  assert (extract_sql s = Ok (fix_names (strip (before FENCE (before FENCE_SQL r))))) as E.
  { rewrite extract_sql_selected. unfold selected. by rewrite Hi. }
  split; [by rewrite H1, (marker_contains_fence _ H1) |]. split; [done |].
  split; [apply strip_trims |].
  intros Hr. split; [| apply strip_trims]. rewrite E. unfold before.
  pose proof (contains_prefix _ (lit "sql") _ Hr) as Hr'.
  apply contains_false_find in Hr, Hr'.
  change (FENCE ++ lit "sql") with FENCE_SQL in Hr'. by rewrite Hr', Hr.
Qed.

Lemma extract_sql_marker_witness :
  let s := lit "Query:  ```sql
  SELECT * FROM actors WHERE id = 1 ;
  " in
  contains FENCE_SQL s && contains FENCE s = true ∧
  extract_sql s = Ok (lit "SELECT * FROM actor WHERE id = 1 ;") ∧
  trims_to (lit "
  SELECT * FROM actors WHERE id = 1 ;
  ") (lit "SELECT * FROM actors WHERE id = 1 ;").
Proof.
  intros s.
  pose proof (extract_sql_marker s 8 eq_refl) as (H1 & _ & _ & H3).
  split; [exact H1 |]. exact (H3 eq_refl).
Defined.

End extractor_properties.

(** ** Properties of the handlers *)

Module AppFacts.
Import PyStr Exn Extractor PyStrFacts ExtractorFacts App.

Ltac unfold_app :=
  cbv beta iota zeta delta
    [script generate connect sql_chain get_schema run_generated_query
     init_session try_except call emit session_get_db session_set_db
     lift_result raise mbind M_bind mret M_ret].

Ltac reduce_app :=
  cbn [negb truthy_str truthy session_state world shown fst snd].

Section handlers.
Context {Handle QResult World : Type} (env : Env Handle QResult World).

Implicit Types (st : state Handle QResult World) (q sql : pystr).

Implicit Types (ev : event Handle QResult).

Lemma framed_ret {A} (a : A) : framed (mret a : M Handle QResult World A).
Proof.
  intros st. split; [done |]. exists []. split; [by rewrite app_nil_r |].
  intros h sql []%elem_of_nil.
Qed.

Lemma framed_raise {A} e : framed (raise e : M Handle QResult World A).
Proof.
  intros st. split; [done |]. exists []. split; [by rewrite app_nil_r |].
  intros h sql []%elem_of_nil.
Qed.

Lemma framed_lift {A} (r : result A) :
  framed (lift_result r : M Handle QResult World A).
Proof.
  intros st. split; [done |]. exists []. split; [by rewrite app_nil_r |].
  intros h sql []%elem_of_nil.
Qed.

Lemma framed_get : framed (session_get_db : M Handle QResult World _).
Proof.
  intros st. split; [done |]. exists []. split; [by rewrite app_nil_r |].
  intros h sql []%elem_of_nil.
Qed.

Lemma framed_emit ev : quiet ev → framed (emit ev : M Handle QResult World unit).
Proof.
  intros Hq st. split; [done |]. exists [ev]. split; [done |].
  intros h sql E%list_elem_of_singleton. subst ev. destruct Hq.
Qed.

Lemma framed_call {A} ev (f : World → result A * World) :
  quiet ev → framed (call ev f).
Proof.
  intros Hq st. unfold call. destruct (f (world st)) as [r w].
  split; [done |]. exists [ev]. split; [done |].
  intros h sql E%list_elem_of_singleton. subst ev. destruct Hq.
Qed.

Lemma framed_seq st st' :
  session_state st' = session_state st →
  (∃ evs, shown st' = shown st ++ evs ∧
          ∀ h sql, CallRun h sql ∈ evs → lookup_db st = PyHandle h) →
  ∀ st'',
    (session_state st'' = session_state st' ∧
     ∃ evs, shown st'' = shown st' ++ evs ∧
            ∀ h sql, CallRun h sql ∈ evs → lookup_db st' = PyHandle h) →
    session_state st'' = session_state st ∧
    ∃ evs, shown st'' = shown st ++ evs ∧
           ∀ h sql, CallRun h sql ∈ evs → lookup_db st = PyHandle h.
Proof.
  intros Hs (evs & Hev & Hrun) st'' (Hs' & evs' & Hev' & Hrun').
  split; [congruence |]. exists (evs ++ evs').
  split; [by rewrite Hev', Hev, app_assoc |].
  intros h sql [?|?]%elem_of_app; [by eapply Hrun |].
  unfold lookup_db in *. rewrite <-Hs. by eapply Hrun'.
Qed.

Lemma framed_bind {A B} (m : M Handle QResult World A)
    (f : A → M Handle QResult World B) :
  framed m → (∀ a, framed (f a)) → framed (m ≫= f).
Proof.
  intros Hm Hf st. unfold mbind, M_bind.
  destruct (Hm st) as [Hs Hev]. destruct (m st) as [[a|e] st']; simpl in *.
  - eapply (framed_seq st st'); [done | done | apply Hf].
  - done.
Qed.

Lemma framed_try {A} (m : M Handle QResult World A) handler :
  framed m → (∀ e, framed (handler e)) → framed (try_except m handler).
Proof.
  intros Hm Hh st. unfold try_except.
  destruct (Hm st) as [Hs Hev]. destruct (m st) as [[a|e] st']; simpl in *.
  - done.
  - eapply (framed_seq st st'); [done | done | apply Hh].
Qed.

Lemma framed_get_schema : framed (get_schema env).
Proof.
  apply framed_bind; [apply framed_get |].
  intros [|h]; [apply framed_ret | by apply framed_call].
Qed.

Lemma framed_sql_chain q : framed (sql_chain env q).
Proof.
  apply framed_bind; [apply framed_get_schema |].
  intros schema. by apply framed_call.
Qed.

Lemma framed_run_generated_query sql : framed (run_generated_query env sql).
Proof.
  intros st. unfold_app. destruct (lookup_db st) as [|h] eqn:E.
  - split; [done |]. exists []. split; [by rewrite app_nil_r |].
    intros h sql' []%elem_of_nil.
  - destruct (db_run env h sql (world st)) as [r w].
    split; [done |]. eexists. split; [done |].
    by intros h' sql' [= -> ->]%list_elem_of_singleton.
Qed.

Lemma framed_generate q : framed (generate env q).
Proof.
  unfold generate. destruct (negb (truthy_str q)); [by apply framed_emit |].
  apply framed_bind.
  - apply framed_try.
    + apply framed_bind; [apply framed_sql_chain | intros raw].
      apply framed_bind; [apply framed_lift | intros sql].
      apply framed_bind; [by apply framed_emit | intros _].
      apply framed_bind; [by apply framed_emit | intros _].
      apply framed_ret.
    + intros e. apply framed_bind; [by apply framed_emit | intros ?; apply framed_ret].
  - intros [sql|]; [| apply framed_ret].
    destruct (truthy_str sql); [| apply framed_ret].
    apply framed_bind; [apply framed_get | intros db].
    destruct (truthy db); [| apply framed_ret].
    apply framed_try.
    + apply framed_bind; [apply framed_run_generated_query | intros r].
      apply framed_bind; [by apply framed_emit | intros ?; by apply framed_emit].
    + intros e. by apply framed_emit.
Qed.

(** *** The first lines of a run and the connect handler *)

Lemma init_session_keeps st :
  ∃ st1, init_session st = (Ok (), st1) ∧
         lookup_db st1 = lookup_db st ∧
         shown st1 = shown st ∧ world st1 = world st.
Proof.
  unfold init_session, lookup_db.
  destruct (session_state st !! "db") as [v|] eqn:E.
  - exists st. by rewrite E.
  - eexists. split; [reflexivity |]. simpl. by rewrite lookup_insert_eq.
Qed.

Lemma connect_result st host port database username password :
  let uri := db_uri host port database username password in
  connect env host port database username password st =
  match from_uri env uri (world st) with
  | (Ok h, w) =>
      (Ok (), mkState (<["db" := PyHandle h]> (session_state st)) w
                (shown st ++ [CallFromUri uri;
                   SidebarSuccess (lit "Connected to database successfully!")]))
  | (Raise e, w) =>
      (Ok (), mkState (<["db" := PyNone]> (session_state st)) w
                (shown st ++ [CallFromUri uri;
                   SidebarError (lit "Failed to connect to database: " ++ exn_msg e)]))
  end.
Proof.
  intros uri. unfold_app. fold uri.
  destruct (from_uri env uri (world st)) as [[h|e] w];
    cbn [session_state world shown]; by rewrite <-app_assoc.
Qed.

(** *** The claims *)


(** C5. When the connection attempt raises, the handler stores [None]
    under ["db"] and shows the exception's message, unchanged, behind
    the fixed prefix of line 104. *)
Theorem connect_failure st host port database username password e w :
  let uri := db_uri host port database username password in
  from_uri env uri (world st) = (Raise e, w) →
  connect env host port database username password st =
    (Ok (), mkState (<["db" := PyNone]> (session_state st)) w
              (shown st ++ [CallFromUri uri;
                 SidebarError (lit "Failed to connect to database: " ++ exn_msg e)])) ∧
  lookup_db (connect env host port database username password st).2 = PyNone.
Proof.
  intros uri H. rewrite connect_result. fold uri. rewrite H.
  split; [done |]. unfold lookup_db. cbn [snd session_state].
  by rewrite lookup_insert_eq.
Qed.

(** C6. With no handle in the session and a non-empty question, the
    completion client is called with a prompt that embeds
    ["No database connected."]. When it answers, the extracted SQL is
    shown as code; when it raises, the generation error is shown. In
    both cases nothing is executed and no execution error is shown. *)
Theorem generate_without_connection st q :
  lookup_db st = PyNone → q ≠ [] →
  let prompt := sql_prompt NO_DATABASE q in
  contains NO_DATABASE prompt = true ∧
  match llm_invoke env prompt STOP (world st) with
  | (Ok raw, w) =>
      ∃ sql, extract_sql raw = Ok sql ∧
        generate env q st =
          (Ok (), mkState (session_state st) w
                    (shown st ++ [CallLlm prompt STOP;
                       StSuccess (lit "SQL Query Generated!");
                       StCode sql]))
  | (Raise e, w) =>
      generate env q st =
        (Ok (), mkState (session_state st) w
                  (shown st ++ [CallLlm prompt STOP;
                     StError (lit "Error generating SQL: " ++ exn_msg e)]))
  end.
Proof.
  intros Hdb Hq prompt. split; [apply contains_app_intro |].
  destruct q as [|c q]; [done |]. unfold_app. unfold lookup_db in *.
  reduce_app. rewrite Hdb. fold prompt.
  destruct (llm_invoke env prompt STOP (world st)) as [[raw|e] w].
  - exists (fix_names (selected raw)). rewrite extract_sql_selected.
    split; [done |]. reduce_app.
    destruct (fix_names (selected raw)); reduce_app; rewrite ?Hdb;
      reduce_app; by rewrite <-!app_assoc.
  - reduce_app. by rewrite <-!app_assoc.
Qed.

(** C7. With the empty question the handler shows the validation
    warning and does nothing else: no call to the completion client,
    no change of session or world. The same holds for the whole run of
    the script that handles the click. *)
Theorem generate_empty_question st :
  generate env [] st =
    (Ok (), mkState (session_state st) (world st)
              (shown st ++ [StWarning
                 (lit "Please enter a question to generate an SQL query.")])) ∧
  (∀ inp,
     clicked inp = ClickGenerate → user_question inp = [] →
     world (script env inp st).2 = world st ∧
     shown (script env inp st).2 =
       shown st ++ [StWarning
         (lit "Please enter a question to generate an SQL query.")]).
Proof.
  split; [reflexivity |]. intros inp Hc Hq. unfold script.
  destruct (init_session_keeps st) as (st1 & E1 & _ & Hsh & Hw).
  unfold mbind, M_bind. rewrite E1, Hc, Hq. cbn [mret M_ret].
  unfold generate, emit. reduce_app. by rewrite Hsh, Hw.
Qed.

(** C9. When the model's answer extracts to the empty string, the
    handler shows it and stops: no statement is executed although the
    session holds a handle. *)
Theorem generate_empty_sql st q h schema raw w1 w2 :
  lookup_db st = PyHandle h → q ≠ [] →
  get_table_info env h (world st) = (Ok schema, w1) →
  llm_invoke env (sql_prompt schema q) STOP w1 = (Ok raw, w2) →
  extract_sql raw = Ok [] →
  generate env q st =
    (Ok (), mkState (session_state st) w2
              (shown st ++ [CallTableInfo h;
                 CallLlm (sql_prompt schema q) STOP;
                 StSuccess (lit "SQL Query Generated!");
                 StCode []])).
Proof.
  intros Hdb Hq Hinfo Hllm Hsql.
  destruct q as [|c q]; [done |]. unfold_app. unfold lookup_db in *.
  reduce_app. rewrite Hdb, Hinfo. reduce_app. rewrite Hllm, Hsql.
  reduce_app. by rewrite <-!app_assoc.
Qed.

(** C10. Generation and execution leave the session as it was. After
    a run of the script the session holds the handle it held before,
    unless the run handled a click on [Connect to Database]: then it
    holds the new handle if the attempt succeeded and [None] if it
    raised. *)
Theorem handle_written_only_by_connect st :
  (∀ q, session_state (generate env q st).2 = session_state st) ∧
  (∀ sql, session_state (run_generated_query env sql st).2 = session_state st) ∧
  (∀ inp,
     lookup_db (script env inp st).2 =
     match clicked inp with
     | ClickConnect =>
         match (from_uri env
                  (db_uri (host inp) (port inp) (database inp)
                     (username inp) (password inp)) (world st)).1 with
         | Ok h => PyHandle h
         | Raise _ => PyNone
         end
     | _ => lookup_db st
     end).
Proof.
  split; [intros q; apply framed_generate |].
  split; [intros sql; apply framed_run_generated_query |].
  intros inp. unfold script.
  destruct (init_session_keeps st) as (st1 & E1 & Hdb & _ & Hw).
  unfold mbind at 1, M_bind at 1. rewrite E1.
  destruct (clicked inp).
  - done.
  - unfold mbind, M_bind. rewrite connect_result, Hw.
    destruct (from_uri _ _ _) as [[h|e] w]; unfold lookup_db;
      cbn; by rewrite lookup_insert_eq.
  - unfold mbind, M_bind. cbn [mret M_ret].
    destruct (framed_generate (user_question inp) st1) as [Hs _].
    unfold lookup_db in *. by rewrite Hs.
Qed.

End handlers.

Lemma connect_failure_witness :
  lookup_db (connect demo_env (lit "localhost") (lit "3306") (lit "sakila")
               (lit "root") (lit "wrong") (demo_connected 1 [])).2 = PyNone.
Proof.
  exact (proj2 (connect_failure demo_env (demo_connected 1 [])
                  (lit "localhost") (lit "3306") (lit "sakila")
                  (lit "root") (lit "wrong")
                  (mkExn OtherError (lit "Access denied for user 'root'")) []
                  eq_refl)).
Defined.

Lemma generate_without_connection_witness :
  let st := demo_fresh (lit "```sql
SELECT COUNT(*) FROM actors
```") in
  let q := lit "How many actors are there?" in
  generate demo_env q st =
    (Ok (), mkState (session_state st) (world st)
              [CallLlm (sql_prompt NO_DATABASE q) STOP;
               StSuccess (lit "SQL Query Generated!");
               StCode (lit "SELECT COUNT(*) FROM actor")]).
Proof.
  intros st q.
  destruct (generate_without_connection demo_env st q eq_refl ltac:(discriminate))
    as [_ (sql & E & G)].
  vm_compute in E. injection E as <-. exact G.
Defined.

Lemma generate_empty_sql_witness :
  let st := demo_connected 1 (lit "```sql
```") in
  let q := lit "How many actors are there?" in
  let schema := lit "CREATE TABLE actor (actor_id INT)" in
  generate demo_env q st =
    (Ok (), mkState (session_state st) (world st)
              [CallTableInfo 1; CallLlm (sql_prompt schema q) STOP;
               StSuccess (lit "SQL Query Generated!"); StCode []]).
Proof.
  intros st q schema.
  exact (generate_empty_sql demo_env st q 1 schema (world st) (world st) (world st)
           eq_refl ltac:(discriminate) eq_refl eq_refl eq_refl).
Defined.

Lemma generate_empty_question_witness :
  let inp := {| host := lit "localhost"; port := lit "3306";
                database := lit "sakila"; username := lit "root";
                password := lit "root"; user_question := [];
                clicked := ClickGenerate |} in
  let st := demo_connected 1 (lit "SELECT 1") in
  world (script demo_env inp st).2 = world st ∧
  shown (script demo_env inp st).2 =
    [StWarning (lit "Please enter a question to generate an SQL query.")].
Proof.
  intros inp st.
  exact (proj2 (generate_empty_question demo_env st) inp eq_refl eq_refl).
Defined.

End AppFacts.

(** ** Further properties of the extractor *)

Module ExtractorMore.
Import PyStr Exn Extractor PyStrFacts ExtractorFacts StripFacts.

(** *** Pieces of a text hold no new occurrences *)

Lemma startswith_app_r p x y :
  startswith p x = true → startswith p (x ++ y) = true.
Proof.
  rewrite !startswith_iff. intros [t ->]. exists (t ++ y). by rewrite <-app_assoc.
Qed.

Lemma contains_app_l p a b : contains p a = true → contains p (a ++ b) = true.
Proof.
  rewrite !contains_true. intros [k Hk]. exists k.
  rewrite drop_app. by apply startswith_app_r.
Qed.

Lemma contains_substring p a t b :
  contains p (a ++ t ++ b) = false → contains p t = false.
Proof.
  intros H. destruct (contains p t) eqn:E; [| done].
  pose proof (contains_app_r p a _ (contains_app_l p t b E)). congruence.
Qed.

Lemma contains_strip p s : contains p s = false → contains p (strip s) = false.
Proof.
  destruct (strip_substring s) as (a & b & E). rewrite E at 1.
  apply contains_substring.
Qed.

Lemma contains_take p n s : contains p s = false → contains p (take n s) = false.
Proof.
  rewrite <-(take_drop n s) at 1. apply (contains_substring p []).
Qed.

Lemma contains_before p sub s :
  contains p s = false → contains p (before sub s) = false.
Proof. unfold before. destruct (find sub s); [apply contains_take | done]. Qed.

Lemma contains_selected p s : contains p s = false → contains p (selected s) = false.
Proof.
  intros H. unfold selected. destruct (find FENCE_SQL s).
  - by apply contains_strip, contains_before, contains_before, contains_drop.
  - by apply contains_strip.
Qed.

(** The first occurrence of a pattern is absent from the text before
    it. *)
Lemma contains_before_self sub s : sub ≠ [] → contains sub (before sub s) = false.
Proof.
  intros Hne. unfold before. destruct (find sub s) as [j|] eqn:E.
  - apply contains_false_find, (find_take_cut _ _ j); [done |].
    destruct sub; [done | simpl; lia].
  - by apply contains_false_find.
Qed.

Lemma selected_substring s : ∃ a b, s = a ++ selected s ++ b.
Proof.
  assert (∀ sub t, ∃ r, t = before sub t ++ r) as Hbefore.
  { intros sub t. unfold before. destruct (find sub t) as [j|].
    - exists (drop j t). by rewrite take_drop.
    - exists []. by rewrite app_nil_r. }
  unfold selected. destruct (find FENCE_SQL s) as [i|]; [| apply strip_substring].
  set (r := drop (i + length FENCE_SQL) s).
  destruct (Hbefore FENCE_SQL r) as [r1 E1].
  destruct (Hbefore FENCE (before FENCE_SQL r)) as [r2 E2].
  destruct (strip_substring (before FENCE (before FENCE_SQL r))) as (a & b & E3).
  exists (take (i + length FENCE_SQL) s ++ a), (b ++ r2 ++ r1).
  rewrite <-(take_drop (i + length FENCE_SQL) s) at 1. fold r.
  rewrite E1 at 1. rewrite E2 at 1. rewrite E3 at 1.
  by rewrite <-!app_assoc.
Qed.

(** *** The replacements keep the ends of a text *)

Lemma head_ok_app x y :
  head_ok (x ++ y) = match x with [] => head_ok y | _ :: _ => head_ok x end.
Proof. by destruct x. Qed.

Lemma head_ok_take n s : head_ok s = true → head_ok (take n s) = true.
Proof. by destruct n, s. Qed.

Lemma reverse_nil_inv (l : pystr) : reverse l = [] → l = [].
Proof.
  intros H. apply (f_equal length) in H. rewrite length_reverse in H.
  by destruct l.
Qed.

Lemma replace_go_nil_inv c old' nh nt s :
  replace_go c old' (nh :: nt) s = [] → s = [].
Proof.
  destruct (startswith (c :: old') s) eqn:E.
  - by rewrite replace_go_hit.
  - destruct s as [|b s]; [done |]. by rewrite replace_go_miss.
Qed.

Lemma replace_go_head_ok c old' nh nt s :
  is_space nh = false → head_ok s = true →
  head_ok (replace_go c old' (nh :: nt) s) = true.
Proof.
  intros Hn Hs. destruct (startswith (c :: old') s) eqn:E.
  - rewrite replace_go_hit by done. simpl. by rewrite Hn.
  - destruct s as [|b s]; [by rewrite replace_go_nil |].
    by rewrite replace_go_miss.
Qed.

Lemma replace_go_last_ok c old' nh nt (s : pystr) :
  head_ok (reverse (nh :: nt)) = true → head_ok (reverse s) = true →
  head_ok (reverse (replace_go c old' (nh :: nt) s)) = true.
Proof.
  intros Hn. induction s as [s IH] using length_ind. intros Hs.
  destruct (startswith (c :: old') s) eqn:E.
  - rewrite replace_go_hit by done. rewrite reverse_app, head_ok_app.
    destruct (reverse (replace_go c old' (nh :: nt) (drop (length (c :: old')) s)))
      eqn:R; [done |].
    rewrite <-R. apply IH.
    + rewrite length_drop. apply startswith_length in E. simpl in *. lia.
    + rewrite reverse_drop. by apply head_ok_take.
  - destruct s as [|b s]; [by rewrite replace_go_nil |].
    rewrite replace_go_miss by done. rewrite reverse_cons, head_ok_app.
    destruct (reverse (replace_go c old' (nh :: nt) s)) eqn:R.
    + pose proof (replace_go_nil_inv _ _ _ _ _ (reverse_nil_inv _ R)) as ->. done.
    + rewrite <-R. apply IH; [simpl; lia |].
      rewrite reverse_cons, head_ok_app in Hs. by destruct (reverse s).
Qed.

Lemma fix_names_ends_ok t :
  head_ok t = true → head_ok (reverse t) = true →
  head_ok (fix_names t) = true ∧ head_ok (reverse (fix_names t)) = true.
Proof.
  intros H1 H2. unfold fix_names.
  change (replace JOIN_ROLES JOIN_FILM_ACTOR ?x)
    with (replace_go 74 (lit "OIN roles") (74%N :: lit "OIN film_actor") x).
  change (replace FROM_ACTORS FROM_ACTOR t)
    with (replace_go 70 (lit "ROM actors") (70%N :: lit "ROM actor") t).
  split.
  - by apply replace_go_head_ok, replace_go_head_ok.
  - by apply replace_go_last_ok, replace_go_last_ok.
Qed.

Lemma selected_ends_ok s :
  head_ok (selected s) = true ∧ head_ok (reverse (selected s)) = true.
Proof. unfold selected. destruct (find FENCE_SQL s); apply strip_ends_ok. Qed.

(** *** Patterns the replacements cannot create *)

Lemma fix_names_id t :
  contains FROM_ACTORS t = false → contains JOIN_ROLES t = false →
  fix_names t = t.
Proof.
  intros H1 H2. unfold fix_names.
  rewrite (replace_id FROM_ACTORS); [| done | done]. by apply replace_id.
Qed.

Lemma fix_names_keeps_out ph q t :
  absent 70 q = true → absent 74 q = true →
  no_start (ph :: q) FROM_ACTOR = true →
  no_start (ph :: q) JOIN_FILM_ACTOR = true →
  contains (ph :: q) t = false →
  contains (ph :: q) (fix_names t) = false.
Proof.
  intros A1 A2 N1 N2 H. unfold fix_names.
  change (replace JOIN_ROLES JOIN_FILM_ACTOR ?x)
    with (replace_go 74 (lit "OIN roles") (74%N :: lit "OIN film_actor") x).
  change (replace FROM_ACTORS FROM_ACTOR t)
    with (replace_go 70 (lit "ROM actors") (70%N :: lit "ROM actor") t).
  apply (replace_go_clean_static _ _ _ _ _ _ (λ s, contains (ph :: q) s = false));
    [apply contains_tail | done | done | by intros s' ?%contains_head |].
  apply (replace_go_clean_static _ _ _ _ _ _ (λ s, contains (ph :: q) s = false));
    [apply contains_tail | done | done | by intros s' ?%contains_head | done].
Qed.

(** *** What every result of [extract_sql] satisfies *)

(** X1. [extract_sql] never raises: the two subscripts of line 160 are
    always in range. *)
Theorem extract_sql_never_raises (s : pystr) (e : exn) : extract_sql s ≠ Raise e.
Proof. by rewrite extract_sql_selected. Qed.

(** X2. The result of [extract_sql] is trimmed: it neither begins nor
    ends with white space, so [strip] leaves it unchanged. *)
Theorem extract_sql_trimmed (s out : pystr) :
  extract_sql s = Ok out → strip out = out.
Proof.
  rewrite extract_sql_selected. intros [= <-].
  destruct (selected_ends_ok s) as [H1 H2].
  destruct (fix_names_ends_ok _ H1 H2) as [H3 H4]. by apply strip_id.
Qed.

Lemma extract_sql_trimmed_witness :
  strip (lit "SELECT * FROM actor") = lit "SELECT * FROM actor".
Proof.
  exact (extract_sql_trimmed (lit "  ```sql
   SELECT * FROM actors
  ```  ") (lit "SELECT * FROM actor") eq_refl).
Defined.

(** X3. The result of [extract_sql] never contains ["JOIN roles"]. *)
Theorem extract_sql_no_join_roles (s out : pystr) :
  extract_sql s = Ok out → contains JOIN_ROLES out = false.
Proof.
  rewrite extract_sql_selected. intros [= <-]. apply join_roles_gone.
Qed.

Lemma extract_sql_no_join_roles_witness :
  contains JOIN_ROLES (lit "a JOIN film_actor JOIN film_actor r") = false.
Proof.
  exact (extract_sql_no_join_roles (lit "a JOIN roles JOIN roles r")
           (lit "a JOIN film_actor JOIN film_actor r") eq_refl).
Defined.

(** X4. After the two replacements a text contains ["FROM actors"]
    exactly when it contained ["FROM actorss"] before. *)
Theorem fix_names_from_actors (t : pystr) :
  contains FROM_ACTORS (fix_names t) = contains (FROM_ACTORS ++ lit "s") t.
Proof.
  unfold fix_names. destruct (contains (FROM_ACTORS ++ lit "s") t) eqn:E.
  - by apply join_roles_keeps_from_actors, from_actors_left.
  - by apply join_roles_keeps_from_actors_out, from_actors_gone.
Qed.

(** X5. When the input contains the [```sql] marker, the result of
    [extract_sql] contains no fence [```] at all. *)
Theorem extract_sql_no_fence (s out : pystr) :
  contains FENCE_SQL s = true → extract_sql s = Ok out →
  contains FENCE out = false.
Proof.
  intros Hm. rewrite extract_sql_selected. intros [= <-].
  change FENCE with (96%N :: lit "``").
  apply fix_names_keeps_out; [by vm_compute .. |].
  unfold selected, contains in *. destruct (find FENCE_SQL s) as [i|]; [| done].
  by apply contains_strip, contains_before_self.
Qed.

Lemma extract_sql_no_fence_witness :
  contains FENCE (lit "SELECT 1") = false.
Proof.
  exact (extract_sql_no_fence (lit "```sql SELECT 1``` and ```sql SELECT 2```")
           (lit "SELECT 1") eq_refl eq_refl).
Defined.

(** X6. When the input holds neither of the two search strings, the
    result of [extract_sql] is a contiguous piece of the input: the
    extractor cuts, it does not rewrite. *)
Theorem extract_sql_substring (s out : pystr) :
  contains FROM_ACTORS s = false → contains JOIN_ROLES s = false →
  extract_sql s = Ok out →
  ∃ a b, s = a ++ out ++ b.
Proof.
  intros H1 H2. rewrite extract_sql_selected. intros [= <-].
  rewrite fix_names_id by by apply contains_selected.
  apply selected_substring.
Qed.

Lemma extract_sql_substring_witness :
  ∃ a b, lit "Try ```sql SELECT 1 ``` now" = a ++ lit "SELECT 1" ++ b.
Proof.
  exact (extract_sql_substring (lit "Try ```sql SELECT 1 ``` now") (lit "SELECT 1")
           eq_refl eq_refl eq_refl).
Defined.

(** X7. When the input does not contain ["FROM actorss"], extracting
    again from the result of [extract_sql] returns that result. *)
Theorem extract_sql_stable (s out : pystr) :
  contains (FROM_ACTORS ++ lit "s") s = false →
  extract_sql s = Ok out → extract_sql out = Ok out.
Proof.
  intros Hx. rewrite !extract_sql_selected. intros [= <-]. f_equal.
  assert (contains FENCE_SQL (fix_names (selected s)) = false) as Hm.
  { change FENCE_SQL with (96%N :: lit "``sql").
    apply fix_names_keeps_out; [by vm_compute .. |].
    change (96%N :: lit "``sql") with FENCE_SQL.
    destruct (contains FENCE_SQL s) eqn:E; [| by apply contains_selected].
    apply (contains_prefix FENCE (lit "sql")).
    unfold selected, contains in *. destruct (find FENCE_SQL s) as [i|]; [| done].
    by apply contains_strip, contains_before_self. }
  unfold selected at 1. apply contains_false_find in Hm. rewrite Hm.
  destruct (selected_ends_ok s) as [H1 H2].
  destruct (fix_names_ends_ok _ H1 H2) as [H3 H4]. rewrite strip_id by done.
  apply fix_names_id; [| apply join_roles_gone].
  unfold fix_names.
  by apply join_roles_keeps_from_actors_out, from_actors_gone, contains_selected.
Qed.

Lemma extract_sql_stable_witness :
  extract_sql (lit "SELECT * FROM actor a JOIN film_actor r") =
  Ok (lit "SELECT * FROM actor a JOIN film_actor r").
Proof.
  exact (extract_sql_stable (lit "Answer: ```sql
SELECT * FROM actors a JOIN roles r
```") (lit "SELECT * FROM actor a JOIN film_actor r") eq_refl eq_refl).
Defined.

(** X22. The text before the first [```sql] marker does not matter:
    dropping it leaves the result of [extract_sql] unchanged. *)
Theorem extract_sql_ignores_prefix (s : pystr) (i : nat) :
  find FENCE_SQL s = Some i → extract_sql (drop i s) = extract_sql s.
Proof.
  intros Hi. rewrite !extract_sql_selected. f_equal. f_equal.
  unfold selected. rewrite Hi.
  pose proof Hi as [Hst _]%find_Some. rewrite (find_Some_0 _ _ Hst).
  by rewrite drop_drop.
Qed.

Lemma extract_sql_ignores_prefix_witness :
  extract_sql (lit "```sql SELECT 1``` is the query.") =
  extract_sql (lit "Here is the query: ```sql SELECT 1``` is the query.").
Proof.
  exact (extract_sql_ignores_prefix
           (lit "Here is the query: ```sql SELECT 1``` is the query.") 19 eq_refl).
Defined.

Lemma fix_names_twice_differs_witness :
  fix_names (fix_names (lit "SELECT * FROM actorss")) ≠
  fix_names (lit "SELECT * FROM actorss").
Proof.
  exact (fix_names_twice_differs (lit "SELECT * FROM actorss") eq_refl).
Defined.

End ExtractorMore.

(** ** Further properties of the handlers *)

Module AppMore.
Import PyStr Exn Extractor PyStrFacts ExtractorFacts App AppFacts.

(** An index into a concrete trace: either no statement is executed
    there, or the entry before it shows the statement. *)
Ltac trace_case :=
  let i := fresh "i" in
  let Hi := fresh "Hi" in
  intros i ? ? Hi;
  do 8 (destruct i as [|i];
        [cbn [lookup list_lookup] in Hi;
         first [discriminate Hi
               | injection Hi as <- <-;
                 split; [done | eexists; split; reflexivity]] |]);
  cbn [lookup list_lookup] in Hi; discriminate Hi.

Ltac trace_done :=
  reduce_app; rewrite <-?app_assoc; eexists; split; [reflexivity | trace_case].

(** A second world for examples: the server accepts every connection
    and hands out the handle [7]; a statement that mentions
    ["missing"] fails. *)
Definition demo_env_up : Env nat pystr pystr := {|
  from_uri uri w := (Ok 7, w);
  get_table_info h w := (Ok (lit "CREATE TABLE actor (actor_id INT)"), w);
  db_run h sql w :=
    if contains (lit "missing") sql
    then (Raise (mkExn OtherError (lit "Table 'sakila.missing' doesn't exist")), w)
    else (Ok (lit "[(200,)]"), w);
  llm_invoke prompt stop w := (Ok w, w);
|}.

(** A world whose database layer and model service are both down. *)
Definition demo_env_down : Env nat pystr pystr := {|
  from_uri uri w := (Raise (mkExn OtherError (lit "Can't connect to MySQL server")), w);
  get_table_info h w := (Raise (mkExn OtherError (lit "MySQL Connection not available")), w);
  db_run h sql w := (Raise (mkExn OtherError (lit "MySQL Connection not available")), w);
  llm_invoke prompt stop w := (Raise (mkExn OtherError (lit "API key not valid")), w);
|}.

(** A world in which the database answers and the model service is
    down. *)
Definition demo_env_no_model : Env nat pystr pystr := {|
  from_uri uri w := (Ok 7, w);
  get_table_info h w := (Ok (lit "CREATE TABLE actor (actor_id INT)"), w);
  db_run h sql w := (Ok (lit "[(200,)]"), w);
  llm_invoke prompt stop w := (Raise (mkExn OtherError (lit "API key not valid")), w);
|}.

Definition demo_inputs (question : pystr) (button : click) : inputs := {|
  host := lit "localhost"; port := lit "3306"; database := lit "sakila";
  username := lit "root"; password := lit "root";
  user_question := question; clicked := button;
|}.

Section handlers.
Context {Handle QResult World : Type} (env : Env Handle QResult World).

Implicit Types (st : state Handle QResult World) (q sql : pystr).
Implicit Types (ev : event Handle QResult).

(** [m] returns normally from every state. *)
Definition never_raises {A} (m : M Handle QResult World A) : Prop :=
  ∀ st, ∃ a, (m st).1 = Ok a.

(** The calls to the collaborators, by kind. *)
Definition is_info ev : bool :=
  match ev with CallTableInfo _ => true | _ => false end.
Definition is_llm ev : bool :=
  match ev with CallLlm _ _ => true | _ => false end.
Definition is_run ev : bool :=
  match ev with CallRun _ _ => true | _ => false end.

Ltac count_done :=
  reduce_app; rewrite <-?app_assoc; eexists;
  split; [reflexivity | cbn [List.filter length is_info is_llm is_run app]; lia].

Lemma never_raises_ret {A} (a : A) :
  never_raises (mret a : M Handle QResult World A).
Proof. intros st. by exists a. Qed.

Lemma never_raises_emit ev :
  never_raises (emit ev : M Handle QResult World unit).
Proof. intros st. by exists (). Qed.

Lemma never_raises_set v :
  never_raises (session_set_db v : M Handle QResult World unit).
Proof. intros st. by exists (). Qed.

Lemma never_raises_get :
  never_raises (session_get_db : M Handle QResult World _).
Proof. intros st. by eexists. Qed.

Lemma never_raises_bind {A B} (m : M Handle QResult World A)
    (f : A → M Handle QResult World B) :
  never_raises m → (∀ a, never_raises (f a)) → never_raises (m ≫= f).
Proof.
  intros Hm Hf st. unfold mbind, M_bind.
  destruct (Hm st) as [a Ha]. destruct (m st) as [[a'|e] st']; [| done].
  apply Hf.
Qed.

(** A [try] whose handler returns normally returns normally, whatever
    its body does. *)
Lemma never_raises_try {A} (m : M Handle QResult World A) handler :
  (∀ e, never_raises (handler e)) → never_raises (try_except m handler).
Proof.
  intros Hh st. unfold try_except.
  destruct (m st) as [[a|e] st']; [by exists a | apply Hh].
Qed.

Lemma never_raises_connect host port database username password :
  never_raises (connect env host port database username password).
Proof.
  apply never_raises_try. intros e.
  apply never_raises_bind; [apply never_raises_set | intros _; apply never_raises_emit].
Qed.

Lemma never_raises_generate q : never_raises (generate env q).
Proof.
  unfold generate. destruct (negb (truthy_str q)); [apply never_raises_emit |].
  apply never_raises_bind.
  - apply never_raises_try. intros e.
    apply never_raises_bind; [apply never_raises_emit | intros _; apply never_raises_ret].
  - intros [sql|]; [| apply never_raises_ret].
    destruct (truthy_str sql); [| apply never_raises_ret].
    apply never_raises_bind; [apply never_raises_get | intros db].
    destruct (truthy db); [| apply never_raises_ret].
    apply never_raises_try. intros e. apply never_raises_emit.
Qed.

(** What lines 83-84 leave behind. *)
Lemma init_session_result st :
  ∃ st1, init_session st = (Ok (), st1) ∧
         lookup_db st1 = lookup_db st ∧
         is_Some (session_state st1 !! "db") ∧
         shown st1 = shown st ∧ world st1 = world st.
Proof.
  unfold init_session, lookup_db.
  destruct (session_state st !! "db") as [v|] eqn:E.
  - exists st. rewrite E. eauto.
  - eexists. split; [reflexivity |]. simpl. rewrite lookup_insert_eq. eauto.
Qed.

(** The statements a run of the script executes go to the handle the
    session held at its start, and only a click on
    [Generate SQL Query] executes any. *)
Lemma script_frame inp st :
  ∃ evs, shown (script env inp st).2 = shown st ++ evs ∧
         ∀ h sql, CallRun h sql ∈ evs →
                  lookup_db st = PyHandle h ∧ clicked inp = ClickGenerate.
Proof.
  unfold script.
  destruct (init_session_result st) as (st1 & E1 & Hdb & _ & Hsh & _).
  unfold mbind at 1, M_bind at 1. rewrite E1.
  destruct (clicked inp).
  - exists []. split; [by rewrite app_nil_r | by intros h sql []%elem_of_nil].
  - unfold mbind, M_bind. rewrite connect_result.
    destruct (from_uri _ _ _) as [[h|e] w]; cbn; rewrite Hsh;
      eexists; (split; [reflexivity |]);
      intros h' sql; rewrite !elem_of_cons, elem_of_nil; intros [?|[?|[]]]; done.
  - unfold mbind, M_bind. cbn [mret M_ret].
    destruct (framed_generate env (user_question inp) st1) as (_ & evs & Hev & Hrun).
    exists evs. rewrite Hev, Hsh. split; [done |].
    intros h sql Hin. rewrite <-Hdb. eauto.
Qed.

(** The handle a run that handles a click on [Connect to Database]
    leaves in the session. *)
Lemma script_connect_handle inp st :
  clicked inp = ClickConnect →
  lookup_db (script env inp st).2 =
  match (from_uri env (db_uri (host inp) (port inp) (database inp)
                         (username inp) (password inp)) (world st)).1 with
  | Ok h => PyHandle h
  | Raise _ => PyNone
  end.
Proof.
  intros Hc. unfold script.
  destruct (init_session_result st) as (st1 & E1 & _ & _ & _ & Hw).
  unfold mbind, M_bind. rewrite E1, Hc, connect_result, Hw.
  destruct (from_uri _ _ _) as [[h|e] w]; unfold lookup_db; cbn;
    by rewrite lookup_insert_eq.
Qed.

(** *** The connect handler *)

(** X9. When the connection attempt returns a handle, the handler
    stores it under ["db"] and shows the success message; the only call
    is the one to [from_uri], with the URI built from the five fields. *)
Theorem connect_success st host port database username password h w :
  let uri := db_uri host port database username password in
  from_uri env uri (world st) = (Ok h, w) →
  connect env host port database username password st =
    (Ok (), mkState (<["db" := PyHandle h]> (session_state st)) w
              (shown st ++ [CallFromUri uri;
                 SidebarSuccess (lit "Connected to database successfully!")])) ∧
  lookup_db (connect env host port database username password st).2 = PyHandle h.
Proof.
  intros uri H. rewrite connect_result. fold uri. rewrite H.
  split; [done |]. unfold lookup_db. cbn [snd session_state].
  by rewrite lookup_insert_eq.
Qed.

(** X21. The URI of line 98 is built without quoting: a colon may move
    between the user name and the password without changing it. *)
Theorem db_uri_no_escaping (host port database username x password : pystr) :
  db_uri host port database (username ++ lit ":" ++ x) password =
  db_uri host port database username (x ++ lit ":" ++ password).
Proof. unfold db_uri. by rewrite <-!app_assoc. Qed.

(** *** The generate handler, path by path *)

(** X10. With a handle in the session, when schema retrieval, the
    completion call and the execution all succeed and the extracted
    SQL is not empty, the handler shows the SQL, executes exactly that
    text on the stored handle and shows the result. *)
Theorem generate_and_run st q h schema raw sql r w1 w2 w3 :
  lookup_db st = PyHandle h → q ≠ [] →
  get_table_info env h (world st) = (Ok schema, w1) →
  llm_invoke env (sql_prompt schema q) STOP w1 = (Ok raw, w2) →
  extract_sql raw = Ok sql → sql ≠ [] →
  db_run env h sql w2 = (Ok r, w3) →
  generate env q st =
    (Ok (), mkState (session_state st) w3
              (shown st ++ [CallTableInfo h;
                 CallLlm (sql_prompt schema q) STOP;
                 StSuccess (lit "SQL Query Generated!");
                 StCode sql;
                 CallRun h sql;
                 StSubheader (lit "SQL Query Result:");
                 StWrite r])).
Proof.
  intros Hdb Hq Hinfo Hllm Hsql Hne Hrun.
  destruct q as [|c q]; [done |]. destruct sql as [|c' sql]; [done |].
  unfold_app. unfold lookup_db in *.
  reduce_app. rewrite Hdb, Hinfo. reduce_app. rewrite Hllm, Hsql.
  reduce_app. rewrite Hdb. reduce_app. rewrite Hdb. reduce_app. rewrite Hrun.
  reduce_app. by rewrite <-!app_assoc.
Qed.

(** X11. When schema retrieval raises, the handler shows the generation
    error with the exception's message and stops: the completion client
    is not called and nothing is executed. *)
Theorem generate_schema_error st q h e w1 :
  lookup_db st = PyHandle h → q ≠ [] →
  get_table_info env h (world st) = (Raise e, w1) →
  generate env q st =
    (Ok (), mkState (session_state st) w1
              (shown st ++ [CallTableInfo h;
                 StError (lit "Error generating SQL: " ++ exn_msg e)])).
Proof.
  intros Hdb Hq Hinfo. destruct q as [|c q]; [done |].
  unfold_app. unfold lookup_db in *.
  reduce_app. rewrite Hdb, Hinfo. reduce_app. by rewrite <-!app_assoc.
Qed.

(** X12. When the completion call raises, the handler shows the
    generation error with the exception's message and executes nothing,
    although the session holds a handle. *)
Theorem generate_llm_error st q h schema e w1 w2 :
  lookup_db st = PyHandle h → q ≠ [] →
  get_table_info env h (world st) = (Ok schema, w1) →
  llm_invoke env (sql_prompt schema q) STOP w1 = (Raise e, w2) →
  generate env q st =
    (Ok (), mkState (session_state st) w2
              (shown st ++ [CallTableInfo h;
                 CallLlm (sql_prompt schema q) STOP;
                 StError (lit "Error generating SQL: " ++ exn_msg e)])).
Proof.
  intros Hdb Hq Hinfo Hllm. destruct q as [|c q]; [done |].
  unfold_app. unfold lookup_db in *.
  reduce_app. rewrite Hdb, Hinfo. reduce_app. rewrite Hllm.
  reduce_app. by rewrite <-!app_assoc.
Qed.

(** X13. When the execution raises, the handler has already shown the
    SQL; it shows the execution error with the exception's message, no
    result, and returns normally. *)
Theorem generate_run_error st q h schema raw sql e w1 w2 w3 :
  lookup_db st = PyHandle h → q ≠ [] →
  get_table_info env h (world st) = (Ok schema, w1) →
  llm_invoke env (sql_prompt schema q) STOP w1 = (Ok raw, w2) →
  extract_sql raw = Ok sql → sql ≠ [] →
  db_run env h sql w2 = (Raise e, w3) →
  generate env q st =
    (Ok (), mkState (session_state st) w3
              (shown st ++ [CallTableInfo h;
                 CallLlm (sql_prompt schema q) STOP;
                 StSuccess (lit "SQL Query Generated!");
                 StCode sql;
                 CallRun h sql;
                 StError (lit "Error running query: " ++ exn_msg e)])).
Proof.
  intros Hdb Hq Hinfo Hllm Hsql Hne Hrun.
  destruct q as [|c q]; [done |]. destruct sql as [|c' sql]; [done |].
  unfold_app. unfold lookup_db in *.
  reduce_app. rewrite Hdb, Hinfo. reduce_app. rewrite Hllm, Hsql.
  reduce_app. rewrite Hdb. reduce_app. rewrite Hdb. reduce_app. rewrite Hrun.
  reduce_app. by rewrite <-!app_assoc.
Qed.

(** X15. Whatever the collaborators answer, a statement the handler
    executes is not empty and is the one it has shown as code in the
    entry just before. *)
Theorem generate_runs_what_it_shows q st :
  ∃ evs,
    shown (generate env q st).2 = shown st ++ evs ∧
    ∀ i h sql,
      evs !! i = Some (CallRun h sql) →
      sql ≠ [] ∧ ∃ j, i = S j ∧ evs !! j = Some (StCode sql).
Proof.
  unfold_app. unfold lookup_db. reduce_app.
  destruct q as [|c q]; reduce_app; [trace_done |].
  destruct (default PyNone (session_state st !! "db")) as [|h] eqn:Hdb.
  - destruct (llm_invoke env _ _ _) as [[raw|e] w]; reduce_app; [| trace_done].
    rewrite extract_sql_selected.
    destruct (fix_names (selected raw)) as [|c' sql] eqn:Hsql; reduce_app;
      rewrite ?Hdb; trace_done.
  - destruct (get_table_info env _ _) as [[schema|e] w1]; reduce_app; [| trace_done].
    destruct (llm_invoke env _ _ _) as [[raw|e] w]; reduce_app; [| trace_done].
    rewrite extract_sql_selected.
    destruct (fix_names (selected raw)) as [|c' sql] eqn:Hsql; reduce_app;
      rewrite ?Hdb; reduce_app; [trace_done |].
    rewrite Hdb. destruct (db_run env _ _ _) as [[r|e] w2]; trace_done.
Qed.

(** X16. Whatever the collaborators answer, one click on
    [Generate SQL Query] makes at most one schema query, one completion
    call and one execution. *)
Theorem generate_calls_once q st :
  ∃ evs,
    shown (generate env q st).2 = shown st ++ evs ∧
    length (List.filter is_info evs) ≤ 1 ∧
    length (List.filter is_llm evs) ≤ 1 ∧
    length (List.filter is_run evs) ≤ 1.
Proof.
  unfold_app. unfold lookup_db. reduce_app.
  destruct q as [|c q]; reduce_app; [count_done |].
  destruct (default PyNone (session_state st !! "db")) as [|h] eqn:Hdb.
  - destruct (llm_invoke env _ _ _) as [[raw|e] w]; reduce_app; [| count_done].
    rewrite extract_sql_selected.
    destruct (fix_names (selected raw)) as [|c' sql] eqn:Hsql; reduce_app;
      rewrite ?Hdb; count_done.
  - destruct (get_table_info env _ _) as [[schema|e] w1]; reduce_app; [| count_done].
    destruct (llm_invoke env _ _ _) as [[raw|e] w]; reduce_app; [| count_done].
    rewrite extract_sql_selected.
    destruct (fix_names (selected raw)) as [|c' sql] eqn:Hsql; reduce_app;
      rewrite ?Hdb; reduce_app; [count_done |].
    rewrite Hdb. destruct (db_run env _ _ _) as [[r|e] w2]; count_done.
Qed.

(** *** Whole runs of the script *)

(** X14. Neither handler lets an exception of its collaborators
    escape: whatever [from_uri], [get_table_info], the completion call
    or [run] raise (an instance of [Exception]), the body under either
    button returns normally. *)
Theorem handlers_catch_collaborator_errors st :
  (∀ host port database username password,
     (connect env host port database username password st).1 = Ok ()) ∧
  (∀ q, (generate env q st).1 = Ok ()).
Proof.
  split.
  - intros host port database username password.
    by destruct (never_raises_connect host port database username password st)
      as [[] ->].
  - intros q. by destruct (never_raises_generate q st) as [[] ->].
Qed.

(** X18. After every run of the script the session has the key
    ["db"], whatever it held before and whichever button was clicked. *)
Theorem script_db_key_present inp st :
  is_Some (session_state (script env inp st).2 !! "db").
Proof.
  unfold script.
  destruct (init_session_result st) as (st1 & E1 & _ & Hkey & _ & _).
  unfold mbind at 1, M_bind at 1. rewrite E1.
  destruct (clicked inp).
  - done.
  - unfold mbind, M_bind. rewrite connect_result.
    destruct (from_uri _ _ _) as [[h|e] w]; cbn; by rewrite lookup_insert_eq.
  - unfold mbind, M_bind. cbn [mret M_ret].
    destruct (framed_generate env (user_question inp) st1) as [Hs _].
    by rewrite Hs.
Qed.

(** X19. After a run whose connection attempt returned the handle [h],
    every statement the next run executes goes to [h]. *)
Theorem connect_then_generate st inp1 inp2 h w :
  clicked inp1 = ClickConnect →
  from_uri env (db_uri (host inp1) (port inp1) (database inp1)
                  (username inp1) (password inp1)) (world st) = (Ok h, w) →
  ∃ evs,
    shown (script env inp2 (script env inp1 st).2).2 =
      shown (script env inp1 st).2 ++ evs ∧
    ∀ h' sql, CallRun h' sql ∈ evs → h' = h.
Proof.
  intros Hc Huri.
  pose proof (script_connect_handle inp1 st Hc) as Hdb. rewrite Huri in Hdb.
  destruct (script_frame inp2 (script env inp1 st).2) as (evs & Hev & Hrun).
  exists evs. split; [done |]. intros h' sql [Hh _]%Hrun.
  rewrite Hdb in Hh. by injection Hh.
Qed.

(** X20. After a run whose connection attempt raised, the next run
    executes nothing, whatever handle the session held before the
    attempt. *)
Theorem failed_connect_then_generate st inp1 inp2 e w :
  clicked inp1 = ClickConnect →
  from_uri env (db_uri (host inp1) (port inp1) (database inp1)
                  (username inp1) (password inp1)) (world st) = (Raise e, w) →
  ∃ evs,
    shown (script env inp2 (script env inp1 st).2).2 =
      shown (script env inp1 st).2 ++ evs ∧
    ∀ h sql, CallRun h sql ∉ evs.
Proof.
  intros Hc Huri.
  pose proof (script_connect_handle inp1 st Hc) as Hdb. rewrite Huri in Hdb.
  destruct (script_frame inp2 (script env inp1 st).2) as (evs & Hev & Hrun).
  exists evs. split; [done |]. intros h sql [Hh _]%Hrun.
  rewrite Hdb in Hh. done.
Qed.

End handlers.
Lemma connect_success_witness :
  lookup_db (connect demo_env_up (lit "localhost") (lit "3306") (lit "sakila")
               (lit "root") (lit "root") (demo_fresh [])).2 = PyHandle 7.
Proof.
  exact (proj2 (connect_success demo_env_up (demo_fresh [])
                  (lit "localhost") (lit "3306") (lit "sakila")
                  (lit "root") (lit "root") 7 [] eq_refl)).
Defined.

Lemma generate_and_run_witness :
  let st := demo_connected 7 (lit "```sql
SELECT COUNT(*) FROM actors
```") in
  let q := lit "How many actors are there?" in
  let schema := lit "CREATE TABLE actor (actor_id INT)" in
  let sql := lit "SELECT COUNT(*) FROM actor" in
  generate demo_env_up q st =
    (Ok (), mkState (session_state st) (world st)
              [CallTableInfo 7; CallLlm (sql_prompt schema q) STOP;
               StSuccess (lit "SQL Query Generated!"); StCode sql;
               CallRun 7 sql; StSubheader (lit "SQL Query Result:");
               StWrite (lit "[(200,)]")]).
Proof.
  intros st q schema sql.
  exact (generate_and_run demo_env_up st q 7 schema (world st) sql (lit "[(200,)]")
           (world st) (world st) (world st)
           eq_refl ltac:(discriminate) eq_refl eq_refl eq_refl
           ltac:(discriminate) eq_refl).
Defined.

Lemma generate_schema_error_witness :
  let st := demo_connected 7 [] in
  let q := lit "How many actors are there?" in
  generate demo_env_down q st =
    (Ok (), mkState (session_state st) (world st)
              [CallTableInfo 7;
               StError (lit "Error generating SQL: MySQL Connection not available")]).
Proof.
  intros st q.
  exact (generate_schema_error demo_env_down st q 7
           (mkExn OtherError (lit "MySQL Connection not available")) (world st)
           eq_refl ltac:(discriminate) eq_refl).
Defined.

Lemma generate_llm_error_witness :
  let st := demo_connected 7 [] in
  let q := lit "How many actors are there?" in
  let schema := lit "CREATE TABLE actor (actor_id INT)" in
  generate demo_env_no_model q st =
    (Ok (), mkState (session_state st) (world st)
              [CallTableInfo 7; CallLlm (sql_prompt schema q) STOP;
               StError (lit "Error generating SQL: API key not valid")]).
Proof.
  intros st q schema.
  exact (generate_llm_error demo_env_no_model st q 7 schema
           (mkExn OtherError (lit "API key not valid")) (world st) (world st)
           eq_refl ltac:(discriminate) eq_refl eq_refl).
Defined.

Lemma generate_run_error_witness :
  let st := demo_connected 7 (lit "SELECT * FROM missing") in
  let q := lit "What is missing?" in
  let schema := lit "CREATE TABLE actor (actor_id INT)" in
  let sql := lit "SELECT * FROM missing" in
  generate demo_env_up q st =
    (Ok (), mkState (session_state st) (world st)
              [CallTableInfo 7; CallLlm (sql_prompt schema q) STOP;
               StSuccess (lit "SQL Query Generated!"); StCode sql;
               CallRun 7 sql;
               StError (lit "Error running query: Table 'sakila.missing' doesn't exist")]).
Proof.
  intros st q schema sql.
  exact (generate_run_error demo_env_up st q 7 schema (world st) sql
           (mkExn OtherError (lit "Table 'sakila.missing' doesn't exist"))
           (world st) (world st) (world st)
           eq_refl ltac:(discriminate) eq_refl eq_refl eq_refl
           ltac:(discriminate) eq_refl).
Defined.

Lemma connect_then_generate_witness :
  let st := demo_fresh (lit "SELECT COUNT(*) FROM actor") in
  let inp1 := demo_inputs [] ClickConnect in
  let inp2 := demo_inputs (lit "How many actors are there?") ClickGenerate in
  ∃ evs,
    shown (script demo_env_up inp2 (script demo_env_up inp1 st).2).2 =
      shown (script demo_env_up inp1 st).2 ++ evs ∧
    ∀ h' sql, CallRun h' sql ∈ evs → h' = 7.
Proof.
  intros st inp1 inp2.
  exact (connect_then_generate demo_env_up st inp1 inp2 7 (world st) eq_refl eq_refl).
Defined.

Lemma failed_connect_then_generate_witness :
  let st := demo_connected 1 (lit "SELECT COUNT(*) FROM actor") in
  let inp1 := demo_inputs [] ClickConnect in
  let inp2 := demo_inputs (lit "How many actors are there?") ClickGenerate in
  ∃ evs,
    shown (script demo_env inp2 (script demo_env inp1 st).2).2 =
      shown (script demo_env inp1 st).2 ++ evs ∧
    ∀ h sql, CallRun h sql ∉ evs.
Proof.
  intros st inp1 inp2.
  exact (failed_connect_then_generate demo_env st inp1 inp2
           (mkExn OtherError (lit "Access denied for user 'root'")) (world st)
           eq_refl eq_refl).
Defined.

End AppMore.
